(** * Array_Instrumentation/arrayinstrumentation.cc: interval analysis and
      bounds-check instrumentation, embedded in Rocq.

    The development follows the source file top to bottom: the [range]
    lattice, the per-array abstract store [arr_state], the per-block
    [block_state], the evaluator [get_range], the per-instruction transfer
    function, branch and switch refinement, widening, the worklist driver
    and the instrumentation loop of [run_pass]. *)

From Stdlib Require Import ZArith List Bool Lia String.
From stdpp Require Import base option gmap list.

Local Open Scope Z_scope.
Local Set Warnings "-register-all".

(* ===================================================================== *)
(** ** Machine integers *)
(* ===================================================================== *)

Definition INT_MAX : Z := 2147483647.
Definition INT_MIN : Z := -2147483648.

(** Conversion of an [int64_t] (or [uint64_t]) to [int]: the value modulo
    2^32, read as a signed 32-bit number. *)
Definition to_int (v : Z) : Z := (v + 2147483648) mod 4294967296 - 2147483648.

(** An [int64_t] result: the value modulo 2^64, read as a signed 64-bit
    number. The sums, differences and products below are computed in
    [int64_t] from [int] operands. *)
Definition to_int64 (v : Z) : Z :=
  (v + 9223372036854775808) mod 18446744073709551616 - 9223372036854775808.

(** The values an [int] can hold. *)
Definition is_int (v : Z) : Prop := INT_MIN <= v <= INT_MAX.

(** [int64_t clamp_i32(int64_t val)] *)
Definition clamp_i32 (val : Z) : Z :=
  if val >? INT_MAX then INT_MAX
  else if val <? INT_MIN then INT_MIN
  else val.

(* ===================================================================== *)
(** ** class range *)
(* ===================================================================== *)

(** The two private [int] fields. [RangeFields] builds a value from two
    numbers that already are [int]s. *)
Record range : Type := RangeFields { safelane : Z; offlane : Z }.

(** [range(int safe, int off)]: the arguments are converted to [int]. *)
Definition range_of (safe off : Z) : range :=
  RangeFields (to_int safe) (to_int off).

Definition get_low (r : range) : Z := safelane r.
Definition get_high (r : range) : Z := offlane r.

Definition r_top : range := RangeFields INT_MIN INT_MAX.
Definition r_bot : range := RangeFields INT_MAX INT_MIN.

#[global] Instance range_eq_dec : EqDecision range.
Proof. solve_decision. Defined.

(** [operator==] and [operator!=] on ranges compare both fields. *)
Definition range_eqb (r1 r2 : range) : bool :=
  (safelane r1 =? safelane r2) && (offlane r1 =? offlane r2).
Definition range_neb (r1 r2 : range) : bool := negb (range_eqb r1 r2).

(** [std::min] / [std::max] over an initializer list of four values. *)
Definition min4 (a b c d : Z) : Z := Z.min (Z.min (Z.min a b) c) d.
Definition max4 (a b c d : Z) : Z := Z.max (Z.max (Z.max a b) c) d.

Module Range.

Definition add (r1 r2 : range) : range :=
  if range_eqb r1 r_bot || range_eqb r2 r_bot then r_bot
  else
    let new_safe := clamp_i32 (to_int64 (safelane r1 + safelane r2)) in
    let new_off := clamp_i32 (to_int64 (offlane r1 + offlane r2)) in
    range_of new_safe new_off.

Definition sub (r1 r2 : range) : range :=
  if range_eqb r1 r_bot || range_eqb r2 r_bot then r_bot
  else
    let new_safe := clamp_i32 (to_int64 (safelane r1 - offlane r2)) in
    let new_off := clamp_i32 (to_int64 (offlane r1 - safelane r2)) in
    range_of new_safe new_off.

Definition mul (r1 r2 : range) : range :=
  if range_eqb r1 r_bot || range_eqb r2 r_bot then r_bot
  else
    let t1 := clamp_i32 (to_int64 (safelane r1 * safelane r2)) in
    let t2 := clamp_i32 (to_int64 (safelane r1 * offlane r2)) in
    let t3 := clamp_i32 (to_int64 (offlane r1 * safelane r2)) in
    let t4 := clamp_i32 (to_int64 (offlane r1 * offlane r2)) in
    let min_val := min4 t1 t2 t3 t4 in
    let max_val := max4 t1 t2 t3 t4 in
    range_of min_val max_val.

Definition join (r1 r2 : range) : range :=
  if range_eqb r1 r_bot then r2
  else if range_eqb r2 r_bot then r1
  else
    let new_safe := Z.min (safelane r1) (safelane r2) in
    let new_off := Z.max (offlane r1) (offlane r2) in
    range_of new_safe new_off.

Definition intersect (r1 r2 : range) : range :=
  if range_eqb r1 r_bot || range_eqb r2 r_bot then r_bot
  else
    let new_safe := Z.max (safelane r1) (safelane r2) in
    let new_off := Z.min (offlane r1) (offlane r2) in
    if new_safe >? new_off then r_bot
    else range_of new_safe new_off.

(** [operator<]: Bottom first, then lexicographic on the two fields. *)
Definition lt (r1 r2 : range) : bool :=
  if range_eqb r1 r_bot then true
  else if range_eqb r2 r_bot then false
  else (safelane r1 <? safelane r2)
       || ((safelane r1 =? safelane r2) && (offlane r1 <? offlane r2)).

End Range.

(** *** Reading of a range as a set of integers, and the data-model
        invariant *)

(** Concretisation: [x] is a value the range allows. [r_bot] allows none. *)
Definition in_range (x : Z) (r : range) : Prop :=
  safelane r <= x <= offlane r.

(** Both fields are [int]s, and the range is Bottom or has [lo <= hi]. *)
Definition range_wf (r : range) : Prop :=
  is_int (safelane r) /\ is_int (offlane r)
  /\ (r = r_bot \/ safelane r <= offlane r).

(** Inclusion order of the lattice: Bottom is least, otherwise the bounds
    of the smaller range lie inside those of the larger one. *)
Definition range_le (a b : range) : Prop :=
  a = r_bot \/ (b <> r_bot /\ safelane b <= safelane a /\ offlane a <= offlane b).

(** The saturating concrete operations the analysis over-approximates. *)
Definition sat_add (x y : Z) : Z := clamp_i32 (x + y).
Definition sat_sub (x y : Z) : Z := clamp_i32 (x - y).
Definition sat_mul (x y : Z) : Z := clamp_i32 (x * y).

(* ===================================================================== *)
(** ** The host IR, as far as the pass inspects it *)
(* ===================================================================== *)

(** A [Value*] or [BasicBlock*] is an address. Maps keyed by pointers are
    keyed by these addresses. *)
Abbreviation addr := positive.

Inductive Ty : Type :=
| IntegerTy (bits : N)
| PointerTy
| ArrayTy (num_elements : Z) (elt : Ty)
| OtherTy.

Definition isPointerTy (t : Ty) : bool :=
  match t with PointerTy => true | _ => false end.
Definition isArrayTy (t : Ty) : bool :=
  match t with ArrayTy _ _ => true | _ => false end.

Inductive Opcode : Type :=
| Add | Sub | Mul | UDiv | SDiv | URem | SRem | Shl | LShr | AShr | And | Or | Xor.

Inductive Predicate : Type :=
| ICMP_EQ | ICMP_NE
| ICMP_UGT | ICMP_UGE | ICMP_ULT | ICMP_ULE
| ICMP_SGT | ICMP_SGE | ICMP_SLT | ICMP_SLE.

(** [CmpInst::getSwappedPredicate]: the predicate of the comparison with
    its operands exchanged. *)
Definition getSwappedPredicate (p : Predicate) : Predicate :=
  match p with
  | ICMP_EQ => ICMP_EQ | ICMP_NE => ICMP_NE
  | ICMP_UGT => ICMP_ULT | ICMP_UGE => ICMP_ULE
  | ICMP_ULT => ICMP_UGT | ICMP_ULE => ICMP_UGE
  | ICMP_SGT => ICMP_SLT | ICMP_SGE => ICMP_SLE
  | ICMP_SLT => ICMP_SGT | ICMP_SLE => ICMP_SGE
  end.

(** [CmpInst::getInversePredicate]: the predicate of the negated
    comparison. *)
Definition getInversePredicate (p : Predicate) : Predicate :=
  match p with
  | ICMP_EQ => ICMP_NE | ICMP_NE => ICMP_EQ
  | ICMP_UGT => ICMP_ULE | ICMP_UGE => ICMP_ULT
  | ICMP_ULT => ICMP_UGE | ICMP_ULE => ICMP_UGT
  | ICMP_SGT => ICMP_SLE | ICMP_SGE => ICMP_SLT
  | ICMP_SLT => ICMP_SGE | ICMP_SLE => ICMP_SGT
  end.

(** Values and non-terminator instructions. Every node carries its own
    address (the first field); operands are the operand nodes themselves,
    so that a [dyn_cast] followed by an operand access is a pattern match.
    [callee] is [getCalledFunction()]: [None] for an indirect call.
    [ConstantInt] carries [getSExtValue()]. *)
Inductive Value : Type :=
| ConstantInt (a : addr) (sext_value : Z)
| ConstantExpr (a : addr) (ty : Ty)
| Argument (a : addr) (ty : Ty)
| BinaryOperator (a : addr) (opc : Opcode) (op0 op1 : Value)
| LoadInst (a : addr) (ty : Ty) (ptr : Value)
| GetElementPtrInst (a : addr) (ptr : Value) (indices : list Value)
| AllocaInst (a : addr) (allocated : Ty)
| StoreInst (a : addr) (val ptr : Value)
| CallInst (a : addr) (ty : Ty) (callee : option addr) (args : list Value)
| PHINode (a : addr) (ty : Ty) (incoming : list (Value * addr))
| SelectInst (a : addr) (ty : Ty) (cond tv fv : Value)
| CastInst (a : addr) (ty : Ty) (op : Value)
| ICmpInst (a : addr) (pred : Predicate) (lhs rhs : Value)
| OtherValue (a : addr) (ty : Ty).

(** The address of a value: what a [Value*] compares and orders by. *)
Definition vaddr (v : Value) : addr :=
  match v with
  | ConstantInt a _ | ConstantExpr a _ | Argument a _
  | BinaryOperator a _ _ _ | LoadInst a _ _ | GetElementPtrInst a _ _
  | AllocaInst a _ | StoreInst a _ _ | CallInst a _ _ _ | PHINode a _ _
  | SelectInst a _ _ _ _ | CastInst a _ _ | ICmpInst a _ _ _
  | OtherValue a _ => a
  end.

(** [v->getType()->isPointerTy()]. Integer constants, arithmetic and
    comparisons never have pointer type; an [alloca] and a
    [getelementptr] always have. *)
Definition is_pointer_typed (v : Value) : bool :=
  match v with
  | ConstantInt _ _ | BinaryOperator _ _ _ _ | StoreInst _ _ _
  | ICmpInst _ _ _ _ => false
  | GetElementPtrInst _ _ _ | AllocaInst _ _ => true
  | ConstantExpr _ t | Argument _ t | LoadInst _ t _ | CallInst _ t _ _
  | PHINode _ t _ | SelectInst _ t _ _ _ | CastInst _ t _
  | OtherValue _ t => isPointerTy t
  end.

Inductive Terminator : Type :=
| Br (dest : addr)
| CondBr (cond : Value) (if_true if_false : addr)
| SwitchInst (cond : Value) (default_dest : addr) (cases : list (Z * addr))
| ReturnInst (ret : option Value)
| OtherTerminator (succs : list addr).

Record BasicBlock : Type := {
  bb_addr : addr;
  bb_insts : list Value;
  bb_term : Terminator
}.

(** [fn_blocks] lists the blocks in layout order, the entry block first.
    [fn_back_edges] is what [FindFunctionBackedges] reports for the
    function. [fn_fresh] is an address above every address in use; the
    blocks and instructions the rewrite creates are allocated from it. *)
Record Function : Type := {
  fn_name : string;
  fn_args : list Value;
  fn_blocks : list BasicBlock;
  fn_back_edges : list (addr * addr);
  fn_fresh : addr
}.

Definition successors_of (t : Terminator) : list addr :=
  match t with
  | Br d => [d]
  | CondBr _ t f => [t; f]
  | SwitchInst _ d cases => d :: map snd cases
  | ReturnInst _ => []
  | OtherTerminator succs => succs
  end.

Definition successors (bb : BasicBlock) : list addr := successors_of (bb_term bb).

Definition get_block (F : Function) (b : addr) : option BasicBlock :=
  find (fun bb => Pos.eqb (bb_addr bb) b) (fn_blocks F).

(** [predecessors(BB)]: one entry per CFG edge into [BB]. The host walks
    the uses of [BB]; here the source blocks come in layout order. *)
Definition predecessors (F : Function) (b : addr) : list BasicBlock :=
  flat_map (fun p => map (fun _ => p)
                       (List.filter (fun s => Pos.eqb s b) (successors p)))
           (fn_blocks F).

(* ===================================================================== *)
(** ** class arr_state, class block_state *)
(* ===================================================================== *)

Record arr_state : Type := ArrState {
  elem_map : gmap Z range;
  default_r : range
}.

(** [arr_state()]: no slot, default [0,0]. *)
Definition arr_state_new : arr_state := ArrState ∅ (range_of 0 0).

#[global] Instance arr_state_eq_dec : EqDecision arr_state.
Proof. solve_decision. Defined.

Record block_state : Type := BlockState {
  val_ranges : gmap addr range;
  arr_states : gmap addr arr_state;
  reachable : bool
}.

(** [block_state()]: unreachable, empty maps. *)
Definition block_state_new : block_state := BlockState ∅ ∅ false.

#[global] Instance block_state_eq_dec : EqDecision block_state.
Proof. solve_decision. Defined.

Definition set_val (state : block_state) (v : addr) (r : range) : block_state :=
  BlockState (<[v := r]> (val_ranges state)) (arr_states state) (reachable state).

Definition set_arr (state : block_state) (v : addr) (s : arr_state) : block_state :=
  BlockState (val_ranges state) (<[v := s]> (arr_states state)) (reachable state).

(** [m.count(k)] for a [std::map]. *)
Definition count {K V} `{Countable K} (m : gmap K V) (k : K) : bool :=
  bool_decide (is_Some (m !! k)).

(* ===================================================================== *)
(** ** arr_state::store_elem, arr_state::load_elem, arr_state::join_arr *)
(* ===================================================================== *)

(** The test [idx_r.get_low() == idx_r.get_high() && idx_r != r_bot]. *)
Definition is_exact (idx_r : range) : bool :=
  (get_low idx_r =? get_high idx_r) && range_neb idx_r r_bot.

(** The weak update: [default_r = join(default_r, val); elem_map.clear()]. *)
Definition store_any (self : arr_state) (val : range) : arr_state :=
  ArrState ∅ (Range.join (default_r self) val).

(** The strong update: [elem_map[i] = val]. *)
Definition store_at (self : arr_state) (i : Z) (val : range) : arr_state :=
  ArrState (<[i := val]> (elem_map self)) (default_r self).

(** [store_elem], with the result of [get_range(idx, state)] passed in as
    [binop_r]; it is consulted only when [idx] is a [BinaryOperator]. *)
Definition store_elem_with (binop_r : range) (self : arr_state) (idx : Value)
    (val : range) (state : block_state) : arr_state :=
  match idx with
  | ConstantInt _ i => store_at self i val
  | ConstantExpr _ _ => store_any self val
  | BinaryOperator _ _ _ _ =>
      let idx_r := binop_r in
      if is_exact idx_r then store_at self (get_low idx_r) val
      else store_any self val
  | _ =>
      match val_ranges state !! vaddr idx with
      | Some idx_r =>
          if is_exact idx_r then store_at self (get_low idx_r) val
          else store_any self val
      | None => store_any self val
      end
  end.

(** [if (elem_map.count(i)) return elem_map[i]; return default_r;] *)
Definition load_at (self : arr_state) (i : Z) : range :=
  match elem_map self !! i with
  | Some r => r
  | None => default_r self
  end.

(** [load_elem], with [get_range(idx, state)] passed in as [binop_r]. *)
Definition load_elem_with (binop_r : range) (self : arr_state) (idx : Value)
    (state : block_state) : range :=
  match idx with
  | ConstantInt _ i => load_at self i
  | ConstantExpr _ _ => default_r self
  | BinaryOperator _ _ _ _ =>
      let idx_r := binop_r in
      if is_exact idx_r then load_at self (get_low idx_r)
      else default_r self
  | _ =>
      match val_ranges state !! vaddr idx with
      | Some idx_r =>
          if is_exact idx_r then load_at self (get_low idx_r)
          else default_r self
      | None => default_r self
      end
  end.

(** [arr_state::join_arr]: the first loop fills the slots of [s1], the
    second the slots only [s2] has. *)
Definition join_arr (s1 s2 : arr_state) : arr_state :=
  let result_default := Range.join (default_r s1) (default_r s2) in
  let first :=
    map_fold (fun idx r1 (acc : gmap Z range) =>
                match elem_map s2 !! idx with
                | Some r2 => <[idx := Range.join r1 r2]> acc
                | None => <[idx := Range.join r1 (default_r s2)]> acc
                end) ∅ (elem_map s1) in
  let second :=
    map_fold (fun idx r2 (acc : gmap Z range) =>
                if count (elem_map s1) idx then acc
                else <[idx := Range.join (default_r s1) r2]> acc)
             first (elem_map s2) in
  ArrState second result_default.

(* ===================================================================== *)
(** ** get_base_ptr, get_range, get_pred_range *)
(* ===================================================================== *)

(** The callers test [ptr != base] on the result: the two differ exactly
    when [ptr] is a [getelementptr], which the matches below decide. *)
Definition get_base_ptr (ptr : Value) : Value :=
  match ptr with
  | GetElementPtrInst _ p _ => p
  | _ => ptr
  end.

(** The three arithmetic opcodes the evaluator knows. *)
Definition eval_binop (opc : Opcode) (r1 r2 : range) : range :=
  match opc with
  | Add => Range.add r1 r2
  | Sub => Range.sub r1 r2
  | Mul => Range.mul r1 r2
  | _ => r_top
  end.

(** [*(++gep->idx_begin())] under the guard [getNumIndices() >= 2]. *)
Definition second_index (indices : list Value) : option Value :=
  match indices with
  | _ :: idx :: _ => Some idx
  | _ => None
  end.

(** The last two lookups of [get_range]. *)
Definition lookup_or_top (state : block_state) (a : addr) : range :=
  match val_ranges state !! a with
  | Some r => r
  | None => r_top
  end.

Fixpoint get_range (val : Value) (state : block_state) {struct val} : range :=
  if negb (reachable state) then r_bot
  else
    match val with
    | ConstantInt _ c => range_of c c
    | ConstantExpr _ _ => r_top
    | BinaryOperator a opc op0 op1 =>
        match val_ranges state !! a with
        | Some r => r
        | None =>
            let r1 := get_range op0 state in
            let r2 := get_range op1 state in
            eval_binop opc r1 r2
        end
    | LoadInst a _ ptr =>
        let through_base (base : Value) :=
          match val_ranges state !! vaddr base with
          | Some r => r
          | None => lookup_or_top state a
          end in
        match ptr with
        | GetElementPtrInst _ base indices =>
            match arr_states state !! vaddr base with
            | Some arr =>
                match indices with
                | _ :: idx :: _ =>
                    load_elem_with (get_range idx state) arr idx state
                | _ => through_base base
                end
            | None => through_base base
            end
        | _ => through_base ptr
        end
    | _ => lookup_or_top state (vaddr val)
    end.

Definition load_elem (self : arr_state) (idx : Value) (state : block_state) : range :=
  load_elem_with (get_range idx state) self idx state.

Definition store_elem (self : arr_state) (idx : Value) (val : range)
    (state : block_state) : arr_state :=
  store_elem_with (get_range idx state) self idx val state.

(** [states[bb]] for a [std::map<BasicBlock*, block_state>]: a block that
    has no entry reads as a default-constructed state. *)
Definition state_at (states : gmap addr block_state) (bb : addr) : block_state :=
  default block_state_new (states !! bb).

Fixpoint get_pred_range (val : Value) (pred_bb : addr)
    (out_states : gmap addr block_state) {struct val} : range :=
  let st := state_at out_states pred_bb in
  if negb (reachable st) then r_bot
  else
    match val with
    | ConstantInt _ c => range_of c c
    | ConstantExpr _ _ => r_top
    | BinaryOperator a opc op0 op1 =>
        match val_ranges st !! a with
        | Some r => r
        | None =>
            let r1 := get_pred_range op0 pred_bb out_states in
            let r2 := get_pred_range op1 pred_bb out_states in
            eval_binop opc r1 r2
        end
    | LoadInst a _ ptr =>
        match val_ranges st !! a with
        | Some r => r
        | None =>
            let through_base (base : Value) := lookup_or_top st (vaddr base) in
            match ptr with
            | GetElementPtrInst _ base indices =>
                match arr_states st !! vaddr base, second_index indices with
                | Some arr, Some idx => load_elem arr idx st
                | _, _ => through_base base
                end
            | _ => through_base ptr
            end
        end
    | _ => lookup_or_top st (vaddr val)
    end.

(* ===================================================================== *)
(** ** transfer_inst *)
(* ===================================================================== *)

(** The body of the argument loop of the call case, for one argument. *)
Definition clobber_arg (current_state : block_state) (arg : Value) : block_state :=
  if is_pointer_typed arg then
    let base := get_base_ptr arg in
    match arr_states current_state !! vaddr base with
    | Some arr => set_arr current_state (vaddr base) (ArrState ∅ r_top)
    | None => set_val current_state (vaddr base) r_top
    end
  else current_state.

Definition transfer_inst (inst : Value) (current_state : block_state)
    (out_states : gmap addr block_state) : block_state :=
  match inst with
  | PHINode a _ incoming =>
      let merged :=
        fold_left (fun merged '(val, pred_bb) =>
                     if reachable (state_at out_states pred_bb) then
                       let pred_r := get_pred_range val pred_bb out_states in
                       Range.join merged pred_r
                     else merged)
                  incoming r_bot in
      set_val current_state a merged
  | AllocaInst a allocated =>
      if isArrayTy allocated then
        set_arr current_state a (ArrState ∅ (range_of 0 0))
      else set_val current_state a r_top
  | LoadInst a _ ptr =>
      match ptr with
      | GetElementPtrInst _ base indices =>
          match arr_states current_state !! vaddr base with
          | Some arr =>
              match second_index indices with
              | Some idx => set_val current_state a (load_elem arr idx current_state)
              | None => current_state
              end
          | None => set_val current_state a (get_range base current_state)
          end
      | _ => set_val current_state a (get_range ptr current_state)
      end
  | StoreInst _ val_op ptr_op =>
      let base := get_base_ptr ptr_op in
      let val_r := get_range val_op current_state in
      match ptr_op with
      | GetElementPtrInst _ _ indices =>
          match arr_states current_state !! vaddr base, second_index indices with
          | Some arr, Some idx =>
              set_arr current_state (vaddr base)
                      (store_elem arr idx val_r current_state)
          | _, _ => set_val current_state (vaddr base) val_r
          end
      | _ => set_val current_state (vaddr base) val_r
      end
  | CallInst a _ callee args =>
      let clobbered :=
        match callee with
        | Some fun_ => fold_left clobber_arg args current_state
        | None => current_state
        end in
      set_val clobbered a r_top
  | BinaryOperator a opc op0 op1 =>
      let r1 := get_range op0 current_state in
      let r2 := get_range op1 current_state in
      set_val current_state a (eval_binop opc r1 r2)
  | SelectInst a _ _ v1 v2 =>
      let r1 := get_range v1 current_state in
      let r2 := get_range v2 current_state in
      set_val current_state a (Range.join r1 r2)
  | CastInst a _ op =>
      set_val current_state a (get_range op current_state)
  | _ => current_state
  end.

(** [for (Instruction &inst : *BB) transfer_inst(inst, current_state, out_state)] *)
Definition transfer_block (insts : list Value) (current_state : block_state)
    (out_states : gmap addr block_state) : block_state :=
  fold_left (fun st inst => transfer_inst inst st out_states) insts current_state.

(* ===================================================================== *)
(** ** block_state::join_state, block_state::operator!= *)
(* ===================================================================== *)

(** Returns the updated [*this] and the [changed] flag. *)
Definition join_state (self other : block_state) : block_state * bool :=
  if negb (reachable other) then (self, false)
  else if negb (reachable self) then
    (BlockState (val_ranges other) (arr_states other) true, true)
  else
    let '(vals, changed1) :=
      map_fold (fun val other_r '(vals, changed) =>
                  if range_eqb other_r r_bot then (vals, changed)
                  else
                    let it := vals !! val in
                    let old_r := default r_bot it in
                    let new_r := Range.join old_r other_r in
                    if bool_decide (it = None) || range_neb old_r new_r
                    then (<[val := new_r]> vals, true)
                    else (vals, changed))
               (val_ranges self, false) (val_ranges other) in
    let '(arrs, changed2) :=
      map_fold (fun alloc other_arr '(arrs, changed) =>
                  let it := arrs !! alloc in
                  let new_arr :=
                    match it with
                    | Some mine => join_arr mine other_arr
                    | None => other_arr
                    end in
                  let needs_update :=
                    match it with
                    | None => true
                    | Some mine =>
                        range_neb (default_r mine) (default_r new_arr)
                        || bool_decide (elem_map mine <> elem_map new_arr)
                    end in
                  if needs_update then (<[alloc := new_arr]> arrs, true)
                  else (arrs, changed))
               (arr_states self, changed1) (arr_states other) in
    (BlockState vals arrs true, changed2).

(** [operator!=]: [true] when the two states are reported different. The
    array loop compares the default and the number of slots. *)
Definition block_state_ne (self other : block_state) : bool :=
  if negb (Bool.eqb (reachable self) (reachable other)) then true
  else if negb (reachable self) && negb (reachable other) then false
  else if negb (size (val_ranges self) =? size (val_ranges other))%nat then true
  else if negb (size (arr_states self) =? size (arr_states other))%nat then true
  else if
    map_fold (fun val r (found : bool) =>
                found ||
                match val_ranges other !! val with
                | None => true
                | Some r' => range_neb r' r
                end) false (val_ranges self)
  then true
  else if
    map_fold (fun alloc arr (found : bool) =>
                found ||
                match arr_states other !! alloc with
                | None => true
                | Some arr' =>
                    range_neb (default_r arr') (default_r arr)
                    || negb (size (elem_map arr') =? size (elem_map arr))%nat
                end) false (arr_states self)
  then true
  else false.

(* ===================================================================== *)
(** ** refine_br, refine_sw *)
(* ===================================================================== *)

(** [dyn_cast<LoadInst>], [dyn_cast<ConstantInt>] and
    [dyn_cast<Argument>], each giving what [refine_br] reads of the cast
    value: the pointer operand, [getSExtValue()], the argument itself. *)
Definition as_load (v : Value) : option Value :=
  match v with LoadInst _ _ p => Some p | _ => None end.
Definition as_const (v : Value) : option Z :=
  match v with ConstantInt _ c => Some c | _ => None end.
Definition as_arg (v : Value) : option addr :=
  match v with Argument a _ => Some a | _ => None end.

(** The operand pattern of [refine_br]: the tracked variable (as the key
    of [val_ranges]), the constant and the predicate, swapped when the
    constant is on the left. The chain of [else if]s is kept: a load on
    the left whose other side is not a constant matches nothing. *)
Definition match_cmp (pred : Predicate) (lhs rhs : Value)
    (pred_state : block_state) : option (addr * Z * Predicate) :=
  match as_load lhs with
  | Some p =>
      match as_const rhs with
      | Some c => Some (vaddr (get_base_ptr p), c, pred)
      | None => None
      end
  | None =>
  match as_load rhs with
  | Some p =>
      match as_const lhs with
      | Some c => Some (vaddr (get_base_ptr p), c, getSwappedPredicate pred)
      | None => None
      end
  | None =>
  match as_arg lhs with
  | Some a =>
      match as_const rhs with
      | Some c => Some (a, c, pred)
      | None => None
      end
  | None =>
  match as_arg rhs with
  | Some a =>
      match as_const lhs with
      | Some c => Some (a, c, getSwappedPredicate pred)
      | None => None
      end
  | None =>
  match as_const rhs with
  | Some c =>
      if count (val_ranges pred_state) (vaddr lhs)
      then Some (vaddr lhs, c, pred) else None
  | None =>
  match as_const lhs with
  | Some c =>
      if count (val_ranges pred_state) (vaddr rhs)
      then Some (vaddr rhs, c, getSwappedPredicate pred) else None
  | None => None
  end end end end end end.

(** The [switch (pred)] of [refine_br]. *)
Definition filter_of (pred : Predicate) (const_val : Z) (var_r : range) : range :=
  match pred with
  | ICMP_SGT =>
      if const_val =? INT_MAX then r_bot else range_of (const_val + 1) INT_MAX
  | ICMP_SGE => range_of const_val INT_MAX
  | ICMP_SLT =>
      if const_val =? INT_MIN then r_bot else range_of INT_MIN (const_val - 1)
  | ICMP_SLE => range_of INT_MIN const_val
  | ICMP_EQ => range_of const_val const_val
  | ICMP_NE =>
      if (get_low var_r =? const_val) && (get_high var_r =? const_val)
      then r_bot else r_top
  | _ => r_top
  end.

(** The tail shared by both refiners: store the refined range and clear
    [reachable] when it is Bottom. *)
Definition set_refined (pred_state : block_state) (var : addr) (refined : range)
    : block_state :=
  BlockState (<[var := refined]> (val_ranges pred_state)) (arr_states pred_state)
             (if range_eqb refined r_bot then false else reachable pred_state).

Definition refine_br (br : Terminator) (succ : addr) (pred_state : block_state)
    : block_state :=
  match br with
  | CondBr (ICmpInst _ pred0 lhs rhs) true_bb _ =>
      match match_cmp pred0 lhs rhs pred_state with
      | Some (var, const_val, pred) =>
          match val_ranges pred_state !! var with
          | Some var_r =>
              let is_true_path := Pos.eqb succ true_bb in
              let pred := if is_true_path then pred else getInversePredicate pred in
              let filter_r := filter_of pred const_val var_r in
              let refined := Range.intersect var_r filter_r in
              set_refined pred_state var refined
          | None => pred_state
          end
      | None => pred_state
      end
  | _ => pred_state
  end.

Definition refine_sw (sw : Terminator) (succ : addr) (pred_state : block_state)
    : block_state :=
  match sw with
  | SwitchInst cond default_dest cases =>
      let var : option addr :=
        match cond with
        | LoadInst _ _ p => Some (vaddr (get_base_ptr p))
        | Argument a _ => Some a
        | _ => if count (val_ranges pred_state) (vaddr cond)
               then Some (vaddr cond) else None
        end in
      match var with
      | Some var =>
          match val_ranges pred_state !! var with
          | Some old_r =>
              let is_default := Pos.eqb default_dest succ in
              if negb is_default then
                let case_r :=
                  fold_left (fun case_r '(val, dest) =>
                               if Pos.eqb dest succ
                               then Range.join case_r (range_of val val)
                               else case_r)
                            cases r_bot in
                let refined := Range.intersect old_r case_r in
                set_refined pred_state var refined
              else pred_state
          | None => pred_state
          end
      | None => pred_state
      end
  | _ => pred_state
  end.

(* ===================================================================== *)
(** ** widen_loop, needs_check *)
(* ===================================================================== *)

Definition is_back_edge (back_edges : list (addr * addr)) (pred curr : addr) : bool :=
  existsb (fun e => Pos.eqb (fst e) pred && Pos.eqb (snd e) curr) back_edges.

(** Returns the updated [pred_state]. *)
Definition widen_loop (pred_state in_state : block_state) (pred curr : addr)
    (back_edges : list (addr * addr)) : block_state :=
  if negb (is_back_edge back_edges pred curr) then pred_state
  else
    let vals :=
      map_fold (fun val old_r (vals : gmap addr range) =>
                  match vals !! val with
                  | Some new_r =>
                      if range_neb old_r new_r && range_neb old_r r_bot then
                        let lower_expanding := get_low new_r <? get_low old_r in
                        let upper_expanding := get_high new_r >? get_high old_r in
                        if lower_expanding || upper_expanding then
                          let new_low := if lower_expanding then INT_MIN else get_low new_r in
                          let new_high := if upper_expanding then INT_MAX else get_high new_r in
                          <[val := range_of new_low new_high]> vals
                        else vals
                      else vals
                  | None => vals
                  end)
               (val_ranges pred_state) (val_ranges in_state) in
    let arrs :=
      map_fold (fun alloc old_arr (arrs : gmap addr arr_state) =>
                  match arrs !! alloc with
                  | Some mine =>
                      if range_neb (default_r mine) (default_r old_arr)
                         || bool_decide (elem_map mine <> elem_map old_arr)
                      then <[alloc := ArrState ∅ r_top]> arrs
                      else arrs
                  | None => arrs
                  end)
               (arr_states pred_state) (arr_states in_state) in
    BlockState vals arrs (reachable pred_state).

(** [size] is a [uint64_t]; [(int)size] converts it. *)
Definition needs_check (r : range) (size : Z) : bool :=
  if range_eqb r r_bot then false
  else if size =? 0 then true
  else if range_neb r r_top && (get_low r >=? 0) && (get_high r <? to_int size)
  then false
  else true.

(* ===================================================================== *)
(** ** run_pass: the worklist loop *)
(* ===================================================================== *)

(** The locals of [run_pass] the loop works on: both state maps, the
    queue [wk] (front first) and the set [in_wk] of queued blocks. *)
Record solver : Type := Solver {
  in_state : gmap addr block_state;
  out_state : gmap addr block_state;
  wk : list addr;
  in_wk : gset addr
}.

#[global] Instance solver_eq_dec : EqDecision solver.
Proof. solve_decision. Defined.

(** The state before the first iteration: every block queued in layout
    order, no state recorded. *)
Definition solver_init (F : Function) : solver :=
  let blocks := map bb_addr (fn_blocks F) in
  Solver ∅ ∅ blocks (list_to_set blocks).

Definition is_entry (F : Function) (bb : addr) : bool :=
  match fn_blocks F with
  | entry :: _ => Pos.eqb (bb_addr entry) bb
  | [] => false
  end.

(** The in-state of the entry block: reachable, every argument Top. *)
Definition entry_state (F : Function) : block_state :=
  fold_left (fun st arg => set_val st (vaddr arg) r_top) (fn_args F)
            (BlockState ∅ ∅ true).

(** One turn of the loop over [predecessors(BB)]. *)
Definition merge_pred (F : Function) (s : solver) (BB : addr)
    (new_in_state : block_state) (pred_bb : BasicBlock) : block_state :=
  let pred_out := state_at (out_state s) (bb_addr pred_bb) in
  if negb (reachable pred_out) then new_in_state
  else
    let pred_out :=
      match bb_term pred_bb with
      | Br _ | CondBr _ _ _ => refine_br (bb_term pred_bb) BB pred_out
      | SwitchInst _ _ _ => refine_sw (bb_term pred_bb) BB pred_out
      | _ => pred_out
      end in
    let pred_out :=
      widen_loop pred_out (state_at (in_state s) BB) (bb_addr pred_bb) BB
                 (fn_back_edges F) in
    if reachable pred_out then fst (join_state new_in_state pred_out)
    else new_in_state.

(** The loop that queues the successors not queued yet. *)
Definition push_successors (succs : list addr) (wk : list addr) (in_wk : gset addr)
    : list addr * gset addr :=
  fold_left (fun '(wk, in_wk) succ_bb =>
               if bool_decide (succ_bb ∈ in_wk) then (wk, in_wk)
               else (wk ++ [succ_bb], {[succ_bb]} ∪ in_wk))
            succs (wk, in_wk).

(** The body of [while (!wk.empty())] for the block [BB] at the front of
    the queue; [rest] is the queue behind it. Every queued address is a
    block of [F]. *)
Definition solver_step (F : Function) (BB : addr) (rest : list addr) (s : solver)
    : solver :=
  match get_block F BB with
  | None => Solver (in_state s) (out_state s) rest (in_wk s ∖ {[BB]})
  | Some blk =>
      let in_wk1 := in_wk s ∖ {[BB]} in
      let new_in_state :=
        if is_entry F BB then entry_state F
        else fold_left (merge_pred F s BB) (predecessors F BB) block_state_new in
      let in_state' := <[BB := new_in_state]> (in_state s) in
      let old_out_state := state_at (out_state s) BB in
      let current_state :=
        if negb (reachable new_in_state) then new_in_state
        else transfer_block (bb_insts blk) new_in_state (out_state s) in
      let out_state' := <[BB := current_state]> (out_state s) in
      let '(wk', in_wk') :=
        if block_state_ne old_out_state current_state
        then push_successors (successors blk) rest in_wk1
        else (rest, in_wk1) in
      Solver in_state' out_state' wk' in_wk'
  end.

(** The loop, bounded by [fuel] iterations: [None] when the queue is not
    empty after [fuel] iterations. *)
Fixpoint solve (fuel : nat) (F : Function) (s : solver) : option solver :=
  match wk s with
  | [] => Some s
  | BB :: rest =>
      match fuel with
      | O => None
      | S fuel' => solve fuel' F (solver_step F BB rest s)
      end
  end.

(** [n] iterations of the loop body, stopping early on an empty queue. *)
Fixpoint iterate (n : nat) (F : Function) (s : solver) : solver :=
  match n with
  | O => s
  | S n' =>
      match wk s with
      | [] => s
      | BB :: rest => iterate n' F (solver_step F BB rest s)
      end
  end.

(* ===================================================================== *)
(** ** add_check and the instrumentation loop of run_pass *)
(* ===================================================================== *)

(** The lines written to [errs()]. *)
Inductive diag : Type :=
| SkippedUnreachable (gep : addr)
| CheckingIndex (idx : addr)
| IndexRange (r : range)
| IndexLoadedFrom (ptr : addr)
| PtrRange (r : range)
| FinalRange (r : range)
| ProvenUnreachable
| ShouldBeSafe (lo hi : Z) (last : Z)
| NeedsCheck (r : range) (size : Z)
| Skipped (gep : addr)
| Instrumenting (gep : addr).

Inductive PreservedAnalyses : Type := PA_all | PA_none.

(** What a run can end in: a result, an exhausted iteration bound, or a
    step whose behaviour the language leaves undefined. *)
Inductive outcome (A : Type) : Type :=
| Finished (a : A)
| OutOfFuel
| Undefined.
Arguments Finished {A} a.
Arguments OutOfFuel {A}.
Arguments Undefined {A}.

(** [gep->getParent()]: the block that holds the instruction now. *)
Definition getParent (blocks : list BasicBlock) (inst : addr) : option BasicBlock :=
  find (fun bb => existsb (fun i => Pos.eqb (vaddr i) inst) (bb_insts bb)) blocks.

(** The instructions of a block before, and from, a given instruction. *)
Fixpoint split_at (inst : addr) (insts : list Value) : list Value * list Value :=
  match insts with
  | [] => ([], [])
  | i :: rest =>
      if Pos.eqb (vaddr i) inst then ([], insts)
      else let '(before, from) := split_at inst rest in (i :: before, from)
  end.

(** What [splitBasicBlock] does to the phi nodes of the successors: the
    incoming block [old_bb] becomes [new_bb]. *)
Definition retarget_phi (old_bb new_bb : addr) (inst : Value) : Value :=
  match inst with
  | PHINode a t incoming =>
      PHINode a t (map (fun '(v, b) => (v, if Pos.eqb b old_bb then new_bb else b))
                       incoming)
  | _ => inst
  end.

(** [add_check]: the three guard instructions go before the access, the
    block is split at the access, a trap block returning -1 is placed
    before the continuation, and the first half ends in the conditional
    branch. Fresh addresses, in order: the two constants, the two
    comparisons, their conjunction, [cont.bb], [err.bb], the constant -1.
    The comparisons are kept as instructions also where the builder would
    fold them (a constant index). The result is [None] when the access has
    no second index: the source then reads past the index list. *)
Definition add_check (gep : Value) (size : Z) (blocks : list BasicBlock)
    (fresh : addr) : option (list BasicBlock * addr) :=
  match gep with
  | GetElementPtrInst g _ (_ :: idx :: _) =>
      let zero := ConstantInt fresh 0 in
      let size_val := ConstantInt (fresh + 1)%positive size in
      let low_check := ICmpInst (fresh + 2)%positive ICMP_SGE idx zero in
      let high_check := ICmpInst (fresh + 3)%positive ICMP_SLT idx size_val in
      let in_bounds := BinaryOperator (fresh + 4)%positive And low_check high_check in
      let cont_addr := (fresh + 5)%positive in
      let err_addr := (fresh + 6)%positive in
      match getParent blocks g with
      | None => None
      | Some curr_bb =>
          let '(before, from) := split_at g (bb_insts curr_bb) in
          let cont_bb := {| bb_addr := cont_addr; bb_insts := from;
                            bb_term := bb_term curr_bb |} in
          let err_bb := {| bb_addr := err_addr; bb_insts := [];
                           bb_term := ReturnInst (Some (ConstantInt (fresh + 7)%positive (-1))) |} in
          let curr_bb' := {| bb_addr := bb_addr curr_bb;
                             bb_insts := before ++ [low_check; high_check; in_bounds];
                             bb_term := CondBr in_bounds cont_addr err_addr |} in
          let succs := successors curr_bb in
          let fix_phis (bb : BasicBlock) :=
            if existsb (Pos.eqb (bb_addr bb)) succs then
              {| bb_addr := bb_addr bb;
                 bb_insts := map (retarget_phi (bb_addr curr_bb) cont_addr) (bb_insts bb);
                 bb_term := bb_term bb |}
            else bb in
          let blocks' :=
            flat_map (fun bb => if Pos.eqb (bb_addr bb) (bb_addr curr_bb)
                                then [fix_phis curr_bb'; err_bb; cont_bb]
                                else [fix_phis bb]) blocks in
          Some (blocks', (fresh + 8)%positive)
      end
  | _ => None
  end.

(** The locals of the instrumentation loop. *)
Record rewriter : Type := Rewriter {
  rw_blocks : list BasicBlock;
  rw_fresh : addr;
  rw_modified : bool;
  rw_log : list diag
}.

Definition say (rw : rewriter) (lines : list diag) : rewriter :=
  Rewriter (rw_blocks rw) (rw_fresh rw) (rw_modified rw) (rw_log rw ++ lines).

(** The lines printed while the index is evaluated. *)
Definition index_lines (idx_val : Value) (state_at_inst : block_state)
    (idx_r : range) : list diag :=
  [CheckingIndex (vaddr idx_val)]
  ++ match val_ranges state_at_inst !! vaddr idx_val with
     | Some r => [IndexRange r]
     | None => []
     end
  ++ match idx_val with
     | LoadInst _ _ ptr =>
         IndexLoadedFrom (vaddr ptr)
         :: match val_ranges state_at_inst !! vaddr ptr with
            | Some r => [PtrRange r]
            | None => []
            end
     | _ => []
     end
  ++ [FinalRange idx_r].

(** The verdict line. [last] is [arr_size - 1] in [uint64_t]. *)
Definition verdict_line (idx_r : range) (needs_instrument : bool) (arr_size : Z)
    : diag :=
  if range_eqb idx_r r_bot then ProvenUnreachable
  else if negb needs_instrument then
    ShouldBeSafe (get_low idx_r) (get_high idx_r) ((arr_size - 1) mod 2 ^ 64)
  else NeedsCheck idx_r arr_size.

(** The interval of the index of an access, after the instructions in
    front of it in its block are replayed from the block's in-state. *)
Definition index_range_at (gep : Value) (BB : BasicBlock)
    (in_states out_states : gmap addr block_state) : block_state * range :=
  let state_at_inst :=
    transfer_block (fst (split_at (vaddr gep) (bb_insts BB)))
                   (state_at in_states (bb_addr BB)) out_states in
  match gep with
  | GetElementPtrInst _ _ (_ :: idx_val :: _) =>
      (state_at_inst, get_range idx_val state_at_inst)
  | _ => (state_at_inst, r_top)
  end.

(** One turn of [for (GetElementPtrInst *gep : geps)]. *)
Definition instrument_gep (in_states out_states : gmap addr block_state)
    (rw : rewriter) (gep : Value) : option rewriter :=
  match gep with
  | GetElementPtrInst g base indices =>
      match getParent (rw_blocks rw) g with
      | None => Some rw
      | Some BB =>
          if negb (reachable (state_at in_states (bb_addr BB))) then
            Some (say rw [SkippedUnreachable g])
          else
            match base with
            | AllocaInst _ (ArrayTy arr_size _) =>
                let '(state_at_inst, idx_r) :=
                  index_range_at gep BB in_states out_states in
                let rw :=
                  match second_index indices with
                  | Some idx_val => say rw (index_lines idx_val state_at_inst idx_r)
                  | None => rw
                  end in
                let needs_instrument := needs_check idx_r arr_size in
                let rw := say rw [verdict_line idx_r needs_instrument arr_size] in
                if negb needs_instrument then Some (say rw [Skipped g])
                else
                  let rw := say rw [Instrumenting g] in
                  match add_check gep arr_size (rw_blocks rw) (rw_fresh rw) with
                  | Some (blocks', fresh') =>
                      Some (Rewriter blocks' fresh' true (rw_log rw))
                  | None => None
                  end
            | _ => Some rw
            end
      end
  | _ => Some rw
  end.

Fixpoint instrument_all (in_states out_states : gmap addr block_state)
    (rw : rewriter) (geps : list Value) : option rewriter :=
  match geps with
  | [] => Some rw
  | gep :: rest =>
      match instrument_gep in_states out_states rw gep with
      | Some rw' => instrument_all in_states out_states rw' rest
      | None => None
      end
  end.

(** The [getelementptr] instructions of the function, in layout order. *)
Definition collect_geps (F : Function) : list Value :=
  flat_map (fun bb => List.filter (fun i => match i with
                                       | GetElementPtrInst _ _ _ => true
                                       | _ => false
                                       end) (bb_insts bb))
           (fn_blocks F).

(** What the caller observes of a run: the returned [PreservedAnalyses],
    the function as the run leaves it, and the lines printed. *)
Record pass_result : Type := PassResult {
  preserved : PreservedAnalyses;
  function_after : Function;
  printed : list diag
}.

(** [run_pass], with the worklist loop bounded by [fuel] iterations. *)
Definition run_pass (fuel : nat) (F : Function) : outcome pass_result :=
  if negb (String.eqb (fn_name F) "test") then Finished (PassResult PA_all F [])
  else
    match solve fuel F (solver_init F) with
    | None => OutOfFuel
    | Some s =>
        let geps := collect_geps F in
        match instrument_all (in_state s) (out_state s)
                             (Rewriter (fn_blocks F) (fn_fresh F) false []) geps with
        | None => Undefined
        | Some rw =>
            Finished
              (PassResult (if rw_modified rw then PA_none else PA_all)
                          {| fn_name := fn_name F; fn_args := fn_args F;
                             fn_blocks := rw_blocks rw;
                             fn_back_edges := fn_back_edges F;
                             fn_fresh := rw_fresh rw |}
                          (rw_log rw))
        end
    end.

(* ===================================================================== *)
(** ** Vocabulary of the properties *)
(* ===================================================================== *)

(** A non-Bottom range of the data model: [int] bounds with [lo <= hi]. *)
Definition proper (r : range) : Prop :=
  is_int (safelane r) /\ is_int (offlane r) /\ safelane r <= offlane r.

(** The forms under which an operand of a comparison names a tracked
    variable, with the key of [val_ranges] it is tracked under: a load
    (the variable is the base of the address), an argument, or another
    instruction result that has an entry of its own. *)
Inductive names_variable : Value -> addr -> Prop :=
| nv_load a t p : names_variable (LoadInst a t p) (vaddr (get_base_ptr p))
| nv_arg a t : names_variable (Argument a t) a
| nv_phi a t inc : names_variable (PHINode a t inc) a
| nv_binop a opc u v : names_variable (BinaryOperator a opc u v) a
| nv_call a t f args : names_variable (CallInst a t f args) a
| nv_cast a t v : names_variable (CastInst a t v) a
| nv_select a t c u v : names_variable (SelectInst a t c u v) a.

(** [s] has a block queued, and one more iteration of the loop leads from
    [s] to a state of [closed]. *)
Definition advances (F : Function) (closed : list solver) (s : solver) : bool :=
  match wk s with
  | [] => false
  | BB :: rest =>
      existsb (fun s' => bool_decide (solver_step F BB rest s = s')) closed
  end.

(* ===================================================================== *)
(** ** Concrete inputs *)
(* ===================================================================== *)

Definition i32 : Ty := IntegerTy 32.

(** An array store with one exact slot, written through an index known
    only to lie in [0,3], then read at the slot. *)
Module Lost.
Definition store : arr_state := ArrState {[3 := range_of 100 100]} (range_of 0 0).
Definition idx : Value := Argument 5 i32.
Definition state : block_state := BlockState {[5%positive := range_of 0 3]} ∅ true.
Definition written : range := range_of 1 1.
Definition three : Value := ConstantInt 6 3.
End Lost.

(** Reachable states that track one array with one slot. *)
Module Stale.
Definition arr (slot v : Z) : arr_state :=
  ArrState {[slot := range_of v v]} (range_of 0 0).
Definition state (slot v : Z) : block_state :=
  BlockState ∅ {[10%positive := arr slot v]} true.
End Stale.

(** A call through a function pointer that passes a tracked array and a
    tracked scalar: [call i32 %fp(ptr %buf, ptr %x)]. *)
Module Indirect.
Definition buf : Value := AllocaInst 10 (ArrayTy 4 i32).
Definition x : Value := AllocaInst 11 i32.
Definition call : Value := CallInst 40 i32 None [buf; x].
Definition direct : Value := CallInst 40 i32 (Some 50%positive) [buf; x].
Definition tracked : arr_state := ArrState {[0 := range_of 5 5]} (range_of 0 0).
Definition state : block_state :=
  BlockState {[11%positive := range_of 1 1]} {[10%positive := tracked]} true.
End Indirect.

(** Two accesses to a four-element array in one block, each through an
    unconstrained argument:
<<
    define i32 @test(i32 %n, i32 %m) {
      %a = alloca [4 x i32]
      %first = getelementptr [4 x i32], ptr %a, i32 0, i32 %n
      store i32 7, ptr %first
      %second = getelementptr [4 x i32], ptr %a, i32 0, i32 %m
      store i32 7, ptr %second
      ret i32 0
    }
>>
*)
Module Twice.
Definition n : Value := Argument 30 i32.
Definition m : Value := Argument 31 i32.
Definition a : Value := AllocaInst 10 (ArrayTy 4 i32).
Definition first : Value := GetElementPtrInst 11 a [ConstantInt 20 0; n].
Definition second : Value := GetElementPtrInst 12 a [ConstantInt 20 0; m].
Definition store_first : Value := StoreInst 13 (ConstantInt 21 7) first.
Definition store_second : Value := StoreInst 14 (ConstantInt 21 7) second.
Definition ret : Terminator := ReturnInst (Some (ConstantInt 20 0)).
Definition entry : BasicBlock :=
  {| bb_addr := 1;
     bb_insts := [a; first; store_first; second; store_second];
     bb_term := ret |}.
Definition F : Function :=
  {| fn_name := "test"; fn_args := [n; m]; fn_blocks := [entry];
     fn_back_edges := []; fn_fresh := 100 |}.

(** The fixpoint: one visit of the only block. *)
Definition solved : solver := iterate 1 F (solver_init F).

(** The function the pass leaves behind: the guard of [first] ends the
    entry block, [err.bb] (106) returns -1, and [cont.bb] (105) holds both
    accesses. *)
Definition low_check : Value := ICmpInst 102 ICMP_SGE n (ConstantInt 100 0).
Definition high_check : Value := ICmpInst 103 ICMP_SLT n (ConstantInt 101 4).
Definition in_bounds : Value := BinaryOperator 104 And low_check high_check.
Definition rewritten : Function :=
  {| fn_name := "test"; fn_args := [n; m];
     fn_blocks :=
       [ {| bb_addr := 1;
            bb_insts := [a; low_check; high_check; in_bounds];
            bb_term := CondBr in_bounds 105 106 |};
         {| bb_addr := 106; bb_insts := [];
            bb_term := ReturnInst (Some (ConstantInt 107 (-1))) |};
         {| bb_addr := 105;
            bb_insts := [first; store_first; second; store_second];
            bb_term := ret |} ];
     fn_back_edges := []; fn_fresh := 108 |}.
Definition lines : list diag :=
  [CheckingIndex 30; IndexRange r_top; FinalRange r_top; NeedsCheck r_top 4;
   Instrumenting 11; SkippedUnreachable 12].
End Twice.

(** A loop that reads the next value of [p] out of the array:
<<
    define i32 @test(i1 %c) {
    entry:
      %a = alloca [4 x i32]
      %p = alloca i32
      %a3 = getelementptr [4 x i32], ptr %a, i32 0, i32 3
      store i32 100, ptr %a3
      store i32 0, ptr %p
      br label %loop
    loop:
      %i = load i32, ptr %p
      %idx = add i32 %i, 3
      %slot = getelementptr [4 x i32], ptr %a, i32 0, i32 %idx
      %t = load i32, ptr %slot
      store i32 %t, ptr %p
      br i1 %c, label %loop, label %exit
    exit:
      ret i32 %t
    }
>>
    Its only back edge is [loop -> loop]. *)
Module Spin.
Definition c : Value := Argument 30 (IntegerTy 1).
Definition a : Value := AllocaInst 10 (ArrayTy 4 i32).
Definition p : Value := AllocaInst 11 i32.
Definition a3 : Value := GetElementPtrInst 12 a [ConstantInt 20 0; ConstantInt 21 3].
Definition i : Value := LoadInst 15 i32 p.
Definition idx : Value := BinaryOperator 16 Add i (ConstantInt 21 3).
Definition slot : Value := GetElementPtrInst 17 a [ConstantInt 20 0; idx].
Definition t : Value := LoadInst 18 i32 slot.
Definition entry : BasicBlock :=
  {| bb_addr := 1;
     bb_insts := [a; p; a3; StoreInst 13 (ConstantInt 22 100) a3;
                  StoreInst 14 (ConstantInt 20 0) p];
     bb_term := Br 2 |}.
Definition loop : BasicBlock :=
  {| bb_addr := 2;
     bb_insts := [i; idx; slot; t; StoreInst 19 t p];
     bb_term := CondBr c 2 3 |}.
Definition exit : BasicBlock :=
  {| bb_addr := 3; bb_insts := []; bb_term := ReturnInst (Some t) |}.
Definition F : Function :=
  {| fn_name := "test"; fn_args := [c]; fn_blocks := [entry; loop; exit];
     fn_back_edges := [(2%positive, 2%positive)]; fn_fresh := 100 |}.

(** The solver states of the first eight iterations. *)
Definition states : list solver :=
  map (fun k => iterate k F (solver_init F)) (seq 0 8).

(** What the loop header has for [p] on entry, at the visits the states
    above end in. *)
Definition p_at_header (k : nat) : option range :=
  val_ranges (state_at (in_state (iterate k F (solver_init F))) 2) !! 11%positive.
End Spin.

(** A function the pass is not meant for. *)
Module Other.
Definition F : Function :=
  {| fn_name := "main"; fn_args := fn_args Twice.F;
     fn_blocks := fn_blocks Twice.F; fn_back_edges := [];
     fn_fresh := 100 |}.
End Other.

(* ===================================================================== *)
(** ** Vocabulary of the further properties *)
(* ===================================================================== *)

(** An index value that is neither a constant, a constant expression nor
    a binary operator: [store_elem] and [load_elem] look such an index up
    in [val_ranges]. *)
Definition plain_index (idx : Value) : Prop :=
  match idx with
  | ConstantInt _ _ | ConstantExpr _ _ | BinaryOperator _ _ _ _ => False
  | _ => True
  end.

(** An index the store cannot pin to one slot: a constant expression, or
    a plain index that is untracked or tracked with a range that is not
    exact. *)
Definition unknown_index (idx : Value) (state : block_state) : Prop :=
  match idx with
  | ConstantInt _ _ | BinaryOperator _ _ _ _ => False
  | ConstantExpr _ _ => True
  | _ => match val_ranges state !! vaddr idx with
         | Some idx_r => is_exact idx_r = false
         | None => True
         end
  end.

(** The data-model invariant, lifted to array stores, block states and
    maps of block states: every range they hold is a range of the data
    model. *)
Definition arr_wf (a : arr_state) : Prop :=
  range_wf (default_r a)
  /\ forall i r, elem_map a !! i = Some r -> range_wf r.

Definition state_wf (st : block_state) : Prop :=
  (forall v r, val_ranges st !! v = Some r -> range_wf r)
  /\ (forall v a, arr_states st !! v = Some a -> arr_wf a).

Definition states_wf (states : gmap addr block_state) : Prop :=
  forall b st, states !! b = Some st -> state_wf st.

(** [st'] has the reachability of [st] and tracks at least the scalars
    and arrays [st] tracks. *)
Definition extends (st st' : block_state) : Prop :=
  reachable st' = reachable st
  /\ (forall k, is_Some (val_ranges st !! k) -> is_Some (val_ranges st' !! k))
  /\ (forall k, is_Some (arr_states st !! k) -> is_Some (arr_states st' !! k)).

(** What an [icmp] with predicate [p] computes on two 32-bit operands
    given as [int]s: the signed predicates compare the numbers, the
    unsigned ones their residues modulo 2^32. *)
Definition to_unsigned (v : Z) : Z := v mod 4294967296.

Definition icmp_holds (p : Predicate) (x y : Z) : bool :=
  match p with
  | ICMP_EQ => x =? y
  | ICMP_NE => negb (x =? y)
  | ICMP_UGT => to_unsigned x >? to_unsigned y
  | ICMP_UGE => to_unsigned x >=? to_unsigned y
  | ICMP_ULT => to_unsigned x <? to_unsigned y
  | ICMP_ULE => to_unsigned x <=? to_unsigned y
  | ICMP_SGT => x >? y
  | ICMP_SGE => x >=? y
  | ICMP_SLT => x <? y
  | ICMP_SLE => x <=? y
  end.

(** What joining leaves under one scalar key and under one array key,
    given the entries of the two states. *)
Definition joined_range (mine other : option range) : option range :=
  match other with
  | Some other_r =>
      if range_eqb other_r r_bot then mine
      else Some (Range.join (default r_bot mine) other_r)
  | None => mine
  end.

Definition joined_array (mine other : option arr_state) : option arr_state :=
  match other with
  | Some other_arr =>
      Some match mine with
           | Some arr => join_arr arr other_arr
           | None => other_arr
           end
  | None => mine
  end.

(** The queue and the set of queued blocks agree, and no block is queued
    twice. *)
Definition queue_ok (s : solver) : Prop :=
  NoDup (wk s) /\ forall b, b ∈ in_wk s <-> b ∈ wk s.

(** Both state maps of the solver hold only ranges of the data model. *)
Definition solver_wf (s : solver) : Prop :=
  states_wf (in_state s) /\ states_wf (out_state s).

(** The line that reports an inserted guard. *)
Definition is_instrumenting (d : diag) : bool :=
  match d with Instrumenting _ => true | _ => false end.


(* ===================================================================== *)
(** ** Machine integers and the range lattice *)
(* ===================================================================== *)

Lemma to_int_id v : is_int v -> to_int v = v.
Proof.
  unfold is_int, to_int, INT_MIN, INT_MAX. intros H.
  rewrite Z.mod_small by lia. lia.
Qed.

Lemma to_int64_id v :
  -9223372036854775808 <= v <= 9223372036854775807 -> to_int64 v = v.
Proof.
  unfold to_int64. intros H. rewrite Z.mod_small by lia. lia.
Qed.

Lemma clamp_is_int v : is_int (clamp_i32 v).
Proof.
  unfold clamp_i32, is_int, INT_MIN, INT_MAX.
  destruct (Z.gtb_spec v 2147483647); [lia|].
  destruct (Z.ltb_spec v (-2147483648)); lia.
Qed.

Lemma clamp_mono u v : u <= v -> clamp_i32 u <= clamp_i32 v.
Proof.
  unfold clamp_i32, INT_MIN, INT_MAX. intros H.
  destruct (Z.gtb_spec u 2147483647), (Z.gtb_spec v 2147483647);
  destruct (Z.ltb_spec u (-2147483648)), (Z.ltb_spec v (-2147483648)); lia.
Qed.

Lemma range_eqb_eq r1 r2 : range_eqb r1 r2 = true <-> r1 = r2.
Proof.
  destruct r1 as [a b], r2 as [c d]. unfold range_eqb. simpl.
  rewrite andb_true_iff, !Z.eqb_eq. split.
  - intros [-> ->]. reflexivity.
  - intros H. inversion H. auto.
Qed.

Lemma range_eqb_neq r1 r2 : range_eqb r1 r2 = false <-> r1 <> r2.
Proof.
  rewrite <- range_eqb_eq. destruct (range_eqb r1 r2); split; congruence.
Qed.

Lemma in_range_not_bot x r : in_range x r -> range_eqb r r_bot = false.
Proof.
  intros [H1 H2]. apply range_eqb_neq. intros ->. simpl in *.
  unfold INT_MAX, INT_MIN in *. lia.
Qed.

Lemma range_of_clamp u v :
  range_of (clamp_i32 u) (clamp_i32 v) = RangeFields (clamp_i32 u) (clamp_i32 v).
Proof. unfold range_of. rewrite !to_int_id by apply clamp_is_int. reflexivity. Qed.

Lemma int_sum_fits a b : is_int a -> is_int b -> to_int64 (a + b) = a + b.
Proof. unfold is_int, INT_MIN, INT_MAX. intros. apply to_int64_id. lia. Qed.
Lemma int_diff_fits a b : is_int a -> is_int b -> to_int64 (a - b) = a - b.
Proof. unfold is_int, INT_MIN, INT_MAX. intros. apply to_int64_id. lia. Qed.
Lemma int_prod_fits a b : is_int a -> is_int b -> to_int64 (a * b) = a * b.
Proof. unfold is_int, INT_MIN, INT_MAX. intros. apply to_int64_id. nia. Qed.

Lemma corner_products lo1 hi1 lo2 hi2 x y :
  lo1 <= x <= hi1 -> lo2 <= y <= hi2 ->
  min4 (lo1 * lo2) (lo1 * hi2) (hi1 * lo2) (hi1 * hi2) <= x * y
  <= max4 (lo1 * lo2) (lo1 * hi2) (hi1 * lo2) (hi1 * hi2).
Proof.
  intros Hx Hy. unfold min4, max4.
  assert (Hxy : lo1 * y <= x * y <= hi1 * y \/ hi1 * y <= x * y <= lo1 * y).
  { destruct (Z.le_gt_cases 0 y).
    - left. split; apply Z.mul_le_mono_nonneg_r; lia.
    - right. split; apply Z.mul_le_mono_nonpos_r; lia. }
  assert (H1 : lo1 * lo2 <= lo1 * y <= lo1 * hi2 \/ lo1 * hi2 <= lo1 * y <= lo1 * lo2).
  { destruct (Z.le_gt_cases 0 lo1).
    - left. split; apply Z.mul_le_mono_nonneg_l; lia.
    - right. split; apply Z.mul_le_mono_nonpos_l; lia. }
  assert (H2 : hi1 * lo2 <= hi1 * y <= hi1 * hi2 \/ hi1 * hi2 <= hi1 * y <= hi1 * lo2).
  { destruct (Z.le_gt_cases 0 hi1).
    - left. split; apply Z.mul_le_mono_nonneg_l; lia.
    - right. split; apply Z.mul_le_mono_nonpos_l; lia. }
  lia.
Qed.

Lemma clamp_min4 a b c d :
  min4 (clamp_i32 a) (clamp_i32 b) (clamp_i32 c) (clamp_i32 d) = clamp_i32 (min4 a b c d).
Proof.
  unfold min4.
  assert (Hm : forall u v, Z.min (clamp_i32 u) (clamp_i32 v) = clamp_i32 (Z.min u v)).
  { intros u v. destruct (Z.le_ge_cases u v) as [H|H].
    - rewrite !Z.min_l; auto using clamp_mono.
    - rewrite !Z.min_r; auto using clamp_mono. }
  rewrite !Hm. reflexivity.
Qed.

Lemma clamp_max4 a b c d :
  max4 (clamp_i32 a) (clamp_i32 b) (clamp_i32 c) (clamp_i32 d) = clamp_i32 (max4 a b c d).
Proof.
  unfold max4.
  assert (Hm : forall u v, Z.max (clamp_i32 u) (clamp_i32 v) = clamp_i32 (Z.max u v)).
  { intros u v. destruct (Z.le_ge_cases u v) as [H|H].
    - rewrite !Z.max_r; auto using clamp_mono.
    - rewrite !Z.max_l; auto using clamp_mono. }
  rewrite !Hm. reflexivity.
Qed.

(** C5: for ranges of the data model and integers [x] in [a], [y] in [b],
    the saturated sum, difference and product of [x] and [y] lie in
    [add a b], [sub a b] and [mul a b]; the bounds [INT_MIN] and [INT_MAX]
    are not excluded. An operation with a Bottom operand is Bottom. *)
Theorem arithmetic_sound :
  (forall (a b : range) (x y : Z),
      range_wf a -> range_wf b -> in_range x a -> in_range y b ->
      in_range (sat_add x y) (Range.add a b)
      /\ in_range (sat_sub x y) (Range.sub a b)
      /\ in_range (sat_mul x y) (Range.mul a b))
  /\ (forall c : range,
        Range.add r_bot c = r_bot /\ Range.add c r_bot = r_bot
        /\ Range.sub r_bot c = r_bot /\ Range.sub c r_bot = r_bot
        /\ Range.mul r_bot c = r_bot /\ Range.mul c r_bot = r_bot).
Proof.
  split.
  - intros a b x y (Ha1 & Ha2 & _) (Hb1 & Hb2 & _) Hx Hy.
    pose proof (in_range_not_bot _ _ Hx) as Na.
    pose proof (in_range_not_bot _ _ Hy) as Nb.
    destruct Hx as [Hx1 Hx2], Hy as [Hy1 Hy2].
    unfold Range.add, Range.sub, Range.mul, sat_add, sat_sub, sat_mul.
    rewrite Na, Nb. cbn [orb].
    rewrite !int_sum_fits, !int_diff_fits, !int_prod_fits by assumption.
    rewrite clamp_min4, clamp_max4, !range_of_clamp.
    unfold in_range. cbn [safelane offlane].
    pose proof (corner_products _ _ _ _ x y (conj Hx1 Hx2) (conj Hy1 Hy2)) as [Hc1 Hc2].
    repeat split; apply clamp_mono; lia.
  - intros c. unfold Range.add, Range.sub, Range.mul.
    replace (range_eqb r_bot r_bot) with true by reflexivity.
    rewrite !orb_true_r. cbn [orb]. repeat split; reflexivity.
Qed.

Lemma arithmetic_sound_witness :
  in_range (sat_add INT_MAX 2)
           (Range.add (range_of (INT_MAX - 1) INT_MAX) (range_of 1 2))
  /\ in_range (sat_sub INT_MAX 2)
              (Range.sub (range_of (INT_MAX - 1) INT_MAX) (range_of 1 2))
  /\ in_range (sat_mul INT_MAX 2)
              (Range.mul (range_of (INT_MAX - 1) INT_MAX) (range_of 1 2)).
Proof.
  apply (proj1 arithmetic_sound); vm_compute; intuition discriminate.
Defined.


Lemma range_of_id lo hi : is_int lo -> is_int hi -> range_of lo hi = RangeFields lo hi.
Proof. intros. unfold range_of. rewrite !to_int_id by assumption. reflexivity. Qed.

Lemma is_int_min a b : is_int a -> is_int b -> is_int (Z.min a b).
Proof. unfold is_int. lia. Qed.
Lemma is_int_max a b : is_int a -> is_int b -> is_int (Z.max a b).
Proof. unfold is_int. lia. Qed.


Lemma wf_cases r : range_wf r <-> r = r_bot \/ proper r.
Proof.
  unfold range_wf, proper. split.
  - intros (H1 & H2 & [H3|H3]); auto.
  - intros [->|(H1 & H2 & H3)]; [|auto].
    unfold is_int, r_bot, INT_MAX, INT_MIN. cbn. repeat split; auto; lia.
Qed.

Lemma proper_not_bot r : proper r -> range_eqb r r_bot = false.
Proof.
  intros (H1 & H2 & H3). apply range_eqb_neq. intros ->.
  cbn in H3. unfold INT_MAX, INT_MIN in H3. lia.
Qed.

Lemma proper_fields lo hi :
  is_int lo -> is_int hi -> lo <= hi -> proper (RangeFields lo hi).
Proof. unfold proper. cbn. auto. Qed.

Lemma join_bot_l b : Range.join r_bot b = b.
Proof. reflexivity. Qed.

Lemma join_bot_r a : Range.join a r_bot = a.
Proof.
  unfold Range.join. destruct (range_eqb a r_bot) eqn:E.
  - symmetry. apply range_eqb_eq, E.
  - reflexivity.
Qed.

Lemma join_proper a b :
  proper a -> proper b ->
  Range.join a b = RangeFields (Z.min (safelane a) (safelane b))
                               (Z.max (offlane a) (offlane b)).
Proof.
  intros Ha Hb. unfold Range.join.
  rewrite (proper_not_bot _ Ha), (proper_not_bot _ Hb).
  destruct Ha as (? & ? & ?), Hb as (? & ? & ?).
  apply range_of_id; auto using is_int_min, is_int_max.
Qed.

Lemma join_proper_proper a b : proper a -> proper b -> proper (Range.join a b).
Proof.
  intros Ha Hb. rewrite join_proper by assumption.
  destruct Ha as (? & ? & ?), Hb as (? & ? & ?).
  apply proper_fields; auto using is_int_min, is_int_max. lia.
Qed.

Lemma intersect_bot_l b : Range.intersect r_bot b = r_bot.
Proof. reflexivity. Qed.

Lemma intersect_bot_r a : Range.intersect a r_bot = r_bot.
Proof.
  unfold Range.intersect. replace (range_eqb r_bot r_bot) with true by reflexivity.
  rewrite orb_true_r. reflexivity.
Qed.

Lemma intersect_proper a b :
  proper a -> proper b ->
  Range.intersect a b
  = if Z.max (safelane a) (safelane b) >? Z.min (offlane a) (offlane b) then r_bot
    else RangeFields (Z.max (safelane a) (safelane b))
                     (Z.min (offlane a) (offlane b)).
Proof.
  intros Ha Hb. unfold Range.intersect.
  rewrite (proper_not_bot _ Ha), (proper_not_bot _ Hb). cbn [orb].
  destruct Ha as (? & ? & ?), Hb as (? & ? & ?).
  rewrite range_of_id; auto using is_int_min, is_int_max.
Qed.

Lemma intersect_overlap a b :
  proper a -> proper b ->
  Z.max (safelane a) (safelane b) <= Z.min (offlane a) (offlane b) ->
  Range.intersect a b = RangeFields (Z.max (safelane a) (safelane b))
                                    (Z.min (offlane a) (offlane b))
  /\ proper (Range.intersect a b).
Proof.
  intros Ha Hb Hle. rewrite intersect_proper by assumption.
  destruct (Z.gtb_spec (Z.max (safelane a) (safelane b))
                       (Z.min (offlane a) (offlane b))); [lia|].
  split; [reflexivity|].
  destruct Ha as (? & ? & ?), Hb as (? & ? & ?).
  apply proper_fields; auto using is_int_min, is_int_max.
Qed.

Lemma intersect_disjoint a b :
  proper a -> proper b ->
  Z.min (offlane a) (offlane b) < Z.max (safelane a) (safelane b) ->
  Range.intersect a b = r_bot.
Proof.
  intros Ha Hb Hlt. rewrite intersect_proper by assumption.
  destruct (Z.gtb_spec (Z.max (safelane a) (safelane b))
                       (Z.min (offlane a) (offlane b))); [reflexivity|lia].
Qed.

Lemma join_wf a b : range_wf a -> range_wf b -> range_wf (Range.join a b).
Proof.
  rewrite !wf_cases. intros [->|Ha] [->|Hb].
  - left. reflexivity.
  - right. rewrite join_bot_l. exact Hb.
  - right. rewrite join_bot_r. exact Ha.
  - right. apply join_proper_proper; assumption.
Qed.

Lemma intersect_wf a b : range_wf a -> range_wf b -> range_wf (Range.intersect a b).
Proof.
  rewrite !wf_cases. intros [->|Ha] [->|Hb]; try (left; reflexivity).
  - left. apply intersect_bot_r.
  - destruct (Z_lt_le_dec (Z.min (offlane a) (offlane b))
                          (Z.max (safelane a) (safelane b))).
    + left. apply intersect_disjoint; assumption.
    + right. apply intersect_overlap; assumption.
Qed.

Lemma join_comm a b : Range.join a b = Range.join b a.
Proof.
  unfold Range.join.
  destruct (range_eqb a r_bot) eqn:Ea, (range_eqb b r_bot) eqn:Eb.
  - apply range_eqb_eq in Ea, Eb. congruence.
  - reflexivity.
  - reflexivity.
  - rewrite Z.min_comm, Z.max_comm. reflexivity.
Qed.

Lemma intersect_comm a b : Range.intersect a b = Range.intersect b a.
Proof.
  unfold Range.intersect. rewrite (orb_comm (range_eqb a r_bot)).
  rewrite (Z.max_comm (safelane a)), (Z.min_comm (offlane a)). reflexivity.
Qed.

Lemma join_assoc a b c :
  range_wf a -> range_wf b -> range_wf c ->
  Range.join (Range.join a b) c = Range.join a (Range.join b c).
Proof.
  rewrite !wf_cases. intros [->|Ha] [->|Hb] [->|Hc];
    rewrite ?join_bot_l, ?join_bot_r; try reflexivity.
  rewrite (join_proper (Range.join a b) c), (join_proper a (Range.join b c))
    by auto using join_proper_proper.
  rewrite !join_proper by assumption. cbn [safelane offlane].
  rewrite Z.min_assoc, Z.max_assoc. reflexivity.
Qed.

Lemma intersect_assoc a b c :
  range_wf a -> range_wf b -> range_wf c ->
  Range.intersect (Range.intersect a b) c = Range.intersect a (Range.intersect b c).
Proof.
  rewrite !wf_cases. intros [->|Ha] [->|Hb] [->|Hc];
    rewrite ?intersect_bot_l, ?intersect_bot_r; try reflexivity.
  destruct (Z_lt_le_dec (Z.min (offlane a) (offlane b))
                        (Z.max (safelane a) (safelane b))) as [Hab|Hab];
  destruct (Z_lt_le_dec (Z.min (offlane b) (offlane c))
                        (Z.max (safelane b) (safelane c))) as [Hbc|Hbc].
  - rewrite (intersect_disjoint a b), (intersect_disjoint b c) by assumption.
    rewrite intersect_bot_r. reflexivity.
  - destruct (intersect_overlap b c Hb Hc Hbc) as [E P].
    rewrite (intersect_disjoint a b) by assumption. rewrite intersect_bot_l.
    symmetry. apply intersect_disjoint; [assumption..|].
    rewrite E. cbn [safelane offlane]. lia.
  - destruct (intersect_overlap a b Ha Hb Hab) as [E P].
    rewrite (intersect_disjoint b c) by assumption. rewrite intersect_bot_r.
    apply intersect_disjoint; [assumption..|].
    rewrite E. cbn [safelane offlane]. lia.
  - destruct (intersect_overlap a b Ha Hb Hab) as [E1 P1].
    destruct (intersect_overlap b c Hb Hc Hbc) as [E2 P2].
    rewrite (intersect_proper _ c P1 Hc), (intersect_proper a _ Ha P2).
    rewrite E1, E2. cbn [safelane offlane].
    rewrite Z.max_assoc, Z.min_assoc. reflexivity.
Qed.

Lemma range_le_bot b : range_le r_bot b.
Proof. left. reflexivity. Qed.

Lemma range_le_proper a b :
  proper a -> range_le a b ->
  b <> r_bot /\ safelane b <= safelane a /\ offlane a <= offlane b.
Proof.
  intros Ha [E|H]; [|exact H].
  apply proper_not_bot in Ha. apply range_eqb_neq in Ha. contradiction.
Qed.

Lemma range_le_fields a b :
  proper b -> safelane b <= safelane a -> offlane a <= offlane b -> range_le a b.
Proof.
  intros Hb H1 H2. right. split; [|auto].
  apply range_eqb_neq, proper_not_bot, Hb.
Qed.

Lemma wf_not_bot_proper b : range_wf b -> b <> r_bot -> proper b.
Proof. rewrite wf_cases. intros [->|H] N; [contradiction|assumption]. Qed.

Lemma join_mono a b c d :
  range_wf a -> range_wf b -> range_wf c -> range_wf d ->
  range_le a b -> range_le c d -> range_le (Range.join a c) (Range.join b d).
Proof.
  intros Wa Wb Wc Wd Hab Hcd.
  apply wf_cases in Wa as [->|Ha]; apply wf_cases in Wc as [->|Hc];
    rewrite ?join_bot_l, ?join_bot_r.
  - apply range_le_bot.
  - destruct (range_le_proper _ _ Hc Hcd) as (Nd & L1 & L2).
    pose proof (wf_not_bot_proper _ Wd Nd) as Hd.
    apply wf_cases in Wb as [->|Hb].
    + rewrite join_bot_l. exact Hcd.
    + apply range_le_fields; [apply join_proper_proper; assumption|..];
        rewrite join_proper by assumption; cbn [safelane offlane]; lia.
  - destruct (range_le_proper _ _ Ha Hab) as (Nb & L1 & L2).
    pose proof (wf_not_bot_proper _ Wb Nb) as Hb.
    apply wf_cases in Wd as [->|Hd].
    + rewrite join_bot_r. exact Hab.
    + apply range_le_fields; [apply join_proper_proper; assumption|..];
        rewrite join_proper by assumption; cbn [safelane offlane]; lia.
  - destruct (range_le_proper _ _ Ha Hab) as (Nb & L1 & L2).
    destruct (range_le_proper _ _ Hc Hcd) as (Nd & L3 & L4).
    pose proof (wf_not_bot_proper _ Wb Nb) as Hb.
    pose proof (wf_not_bot_proper _ Wd Nd) as Hd.
    apply range_le_fields; [apply join_proper_proper; assumption|..];
      rewrite !join_proper by assumption; cbn [safelane offlane]; lia.
Qed.

Lemma intersect_mono a b c d :
  range_wf a -> range_wf b -> range_wf c -> range_wf d ->
  range_le a b -> range_le c d ->
  range_le (Range.intersect a c) (Range.intersect b d).
Proof.
  intros Wa Wb Wc Wd Hab Hcd.
  apply wf_cases in Wa as [->|Ha]; [apply range_le_bot|].
  apply wf_cases in Wc as [->|Hc]; [rewrite intersect_bot_r; apply range_le_bot|].
  destruct (range_le_proper _ _ Ha Hab) as (Nb & L1 & L2).
  destruct (range_le_proper _ _ Hc Hcd) as (Nd & L3 & L4).
  pose proof (wf_not_bot_proper _ Wb Nb) as Hb.
  pose proof (wf_not_bot_proper _ Wd Nd) as Hd.
  destruct (Z_lt_le_dec (Z.min (offlane a) (offlane c))
                        (Z.max (safelane a) (safelane c))) as [Hac|Hac].
  - rewrite (intersect_disjoint a c) by assumption. apply range_le_bot.
  - destruct (intersect_overlap a c Ha Hc Hac) as [E1 P1].
    assert (Hbd : Z.max (safelane b) (safelane d) <= Z.min (offlane b) (offlane d)) by lia.
    destruct (intersect_overlap b d Hb Hd Hbd) as [E2 P2].
    apply range_le_fields; [assumption|..]; rewrite E1, E2; cbn [safelane offlane]; lia.
Qed.

Lemma intersect_idem a : range_wf a -> Range.intersect a a = a.
Proof.
  rewrite wf_cases. intros [->|Ha]; [reflexivity|].
  assert (H : Z.max (safelane a) (safelane a) <= Z.min (offlane a) (offlane a)).
  { destruct Ha as (_ & _ & ?). lia. }
  destruct (intersect_overlap a a Ha Ha H) as [E _]. rewrite E.
  rewrite Z.max_id, Z.min_id. destruct a; reflexivity.
Qed.

(** Inclusion of ranges is inclusion of the sets of integers they allow. *)
Lemma range_le_subset a b :
  range_wf a -> range_wf b ->
  range_le a b <-> (forall x, in_range x a -> in_range x b).
Proof.
  intros Wa Wb. split.
  - intros [->|(Nb & L1 & L2)] x [H1 H2].
    + cbn in *. unfold INT_MAX, INT_MIN in *. lia.
    + unfold in_range. lia.
  - intros H. apply wf_cases in Wa as [->|Ha]; [apply range_le_bot|].
    destruct Ha as (A1 & A2 & A3).
    assert (Hlo : in_range (safelane a) b) by (apply H; unfold in_range; lia).
    assert (Hhi : in_range (offlane a) b) by (apply H; unfold in_range; lia).
    right. split.
    + apply range_eqb_neq. apply (in_range_not_bot _ _ Hlo).
    + unfold in_range in *. lia.
Qed.

(** C6: on ranges of the data model, [join] and [intersect] are
    commutative, associative and monotone for the inclusion order, and
    [intersect a a = a], [join a r_bot = a], [intersect a r_bot = r_bot]. *)
Theorem lattice_laws (a b c d : range) :
  range_wf a -> range_wf b -> range_wf c -> range_wf d ->
  Range.join a b = Range.join b a
  /\ Range.join (Range.join a b) c = Range.join a (Range.join b c)
  /\ (range_le a b -> range_le c d -> range_le (Range.join a c) (Range.join b d))
  /\ Range.intersect a b = Range.intersect b a
  /\ Range.intersect (Range.intersect a b) c = Range.intersect a (Range.intersect b c)
  /\ (range_le a b -> range_le c d ->
      range_le (Range.intersect a c) (Range.intersect b d))
  /\ Range.intersect a a = a
  /\ Range.join a r_bot = a
  /\ Range.intersect a r_bot = r_bot.
Proof.
  intros Wa Wb Wc Wd.
  repeat split;
    auto using join_comm, join_assoc, join_mono, intersect_comm, intersect_assoc,
      intersect_mono, intersect_idem, join_bot_r, intersect_bot_r.
Qed.

Lemma lattice_laws_witness :
  Range.join (range_of 0 5) (range_of 2 10) = Range.join (range_of 2 10) (range_of 0 5)
  /\ Range.intersect (range_of 0 5) (range_of 0 5) = range_of 0 5
  /\ range_le (Range.intersect (range_of 0 5) (range_of 3 7))
              (Range.intersect (range_of 0 10) (range_of 3 8)).
Proof.
  assert (W : forall lo hi, 0 <= lo <= hi -> hi <= 10 -> range_wf (range_of lo hi)).
  { intros lo hi H1 H2. rewrite range_of_id by (unfold is_int, INT_MIN, INT_MAX; lia).
    unfold range_wf, is_int, INT_MIN, INT_MAX. cbn. lia. }
  assert (B : range_wf r_bot) by (vm_compute; intuition discriminate).
  destruct (lattice_laws (range_of 0 5) (range_of 0 10) (range_of 3 7) (range_of 3 8)
              (W 0 5 ltac:(lia) ltac:(lia)) (W 0 10 ltac:(lia) ltac:(lia))
              (W 3 7 ltac:(lia) ltac:(lia)) (W 3 8 ltac:(lia) ltac:(lia)))
    as (_ & _ & _ & _ & _ & M & I & _).
  destruct (lattice_laws (range_of 0 5) (range_of 2 10) r_bot r_bot
              (W 0 5 ltac:(lia) ltac:(lia)) (W 2 10 ltac:(lia) ltac:(lia)) B B)
    as (C & _).
  split; [exact C|]. split; [exact I|].
  apply M; right; vm_compute; intuition discriminate.
Defined.

(* ===================================================================== *)
(** ** The array abstract store *)
(* ===================================================================== *)

(** C7: a store at a constant index followed by a load at that index gives
    back the stored range; the default is not touched; a load at another
    constant index that has no slot gives the default, as does any load at
    a constant index without a slot. *)
Theorem store_load_roundtrip (self : arr_state) (v : range) (i j : Z)
    (ai ai' aj : addr) (st st' : block_state) :
  let stored := store_elem self (ConstantInt ai i) v st in
  load_elem stored (ConstantInt ai' i) st' = v
  /\ default_r stored = default_r self
  /\ (j <> i -> elem_map self !! j = None ->
      load_elem stored (ConstantInt aj j) st' = default_r self)
  /\ (elem_map self !! j = None ->
      load_elem self (ConstantInt aj j) st' = default_r self).
Proof.
  cbn. unfold load_elem, store_elem, load_elem_with, store_elem_with, load_at, store_at.
  cbn [elem_map default_r]. repeat split.
  - rewrite lookup_insert_eq. reflexivity.
  - intros Hne Hnone. rewrite lookup_insert_ne by congruence. rewrite Hnone. reflexivity.
  - intros Hnone. rewrite Hnone. reflexivity.
Qed.

Lemma store_load_roundtrip_witness :
  load_elem (store_elem Lost.store (ConstantInt 7 0) (range_of 4 9) Lost.state)
            (ConstantInt 8 0) Lost.state = range_of 4 9
  /\ load_elem (store_elem Lost.store (ConstantInt 7 0) (range_of 4 9) Lost.state)
               (ConstantInt 8 1) Lost.state = default_r Lost.store.
Proof.
  destruct (store_load_roundtrip Lost.store (range_of 4 9) 0 1 7 8 8
                                 Lost.state Lost.state) as (R & _ & O & _).
  split; [exact R|]. apply O; [lia|reflexivity].
Defined.

(** C1, at the input of [Lost]: the index is not exact, the slot 3 read
    [100,100] before the write, the write leaves no slot and the default
    [0,1], and the load of slot 3 after it gives [0,1], which does not
    contain 100. *)
Theorem nonconstant_store_drops_slot :
  is_exact (get_range Lost.idx Lost.state) = false
  /\ load_elem Lost.store Lost.three Lost.state = range_of 100 100
  /\ store_elem Lost.store Lost.idx Lost.written Lost.state = ArrState ∅ (range_of 0 1)
  /\ load_elem (store_elem Lost.store Lost.idx Lost.written Lost.state)
               Lost.three Lost.state = range_of 0 1
  /\ ~ range_le (range_of 100 100) (range_of 0 1)
  /\ in_range 100 (range_of 100 100) /\ ~ in_range 100 (range_of 0 1).
Proof.
  repeat split; try (vm_compute; reflexivity).
  - intros [H|(_ & _ & H)]; [discriminate H|]. vm_compute in H. apply H. reflexivity.
  - vm_compute. discriminate.
  - vm_compute. discriminate.
  - intros [_ H]. vm_compute in H. apply H. reflexivity.
Qed.

(* ===================================================================== *)
(** ** State comparison *)
(* ===================================================================== *)

(** C2, at the inputs of [Stale]: two reachable states whose only array
    has one slot each are reported equal although the slot holds another
    range, or sits at another index. *)
Theorem state_comparison_counts_slots :
  block_state_ne (Stale.state 0 1) (Stale.state 0 2) = false
  /\ Stale.state 0 1 <> Stale.state 0 2
  /\ block_state_ne (Stale.state 0 1) (Stale.state 7 1) = false
  /\ Stale.state 0 1 <> Stale.state 7 1.
Proof.
  repeat split; try (vm_compute; reflexivity).
  - intros H. apply (f_equal (fun s => arr_states s !! 10%positive)) in H.
    vm_compute in H. discriminate.
  - intros H. apply (f_equal (fun s => arr_states s !! 10%positive)) in H.
    vm_compute in H. discriminate.
Qed.

(* ===================================================================== *)
(** ** Calls *)
(* ===================================================================== *)

Lemma clobber_keeps_no_array st arg b :
  arr_states st !! b = None -> arr_states (clobber_arg st arg) !! b = None.
Proof.
  intros H. unfold clobber_arg. destruct (is_pointer_typed arg); [|exact H].
  destruct (arr_states st !! vaddr (get_base_ptr arg)) eqn:E; cbn; [|exact H].
  rewrite lookup_insert_ne; [exact H|]. intros Heq. rewrite Heq in E. congruence.
Qed.

Lemma clobber_keeps_reset_array st arg b :
  arr_states st !! b = Some (ArrState ∅ r_top) ->
  arr_states (clobber_arg st arg) !! b = Some (ArrState ∅ r_top).
Proof.
  intros H. unfold clobber_arg. destruct (is_pointer_typed arg); [|exact H].
  destruct (arr_states st !! vaddr (get_base_ptr arg)) eqn:E; cbn; [|exact H].
  destruct (decide (vaddr (get_base_ptr arg) = b)) as [->|N].
  - apply lookup_insert_eq.
  - rewrite lookup_insert_ne by exact N. exact H.
Qed.

Lemma clobber_keeps_top st arg b :
  val_ranges st !! b = Some r_top ->
  val_ranges (clobber_arg st arg) !! b = Some r_top.
Proof.
  intros H. unfold clobber_arg. destruct (is_pointer_typed arg); [|exact H].
  destruct (arr_states st !! vaddr (get_base_ptr arg)) eqn:E; cbn; [exact H|].
  destruct (decide (vaddr (get_base_ptr arg) = b)) as [->|N].
  - apply lookup_insert_eq.
  - rewrite lookup_insert_ne by exact N. exact H.
Qed.

Lemma clobber_keeps_array st arg b :
  is_Some (arr_states st !! b) -> is_Some (arr_states (clobber_arg st arg) !! b).
Proof.
  intros H. unfold clobber_arg. destruct (is_pointer_typed arg); [|exact H].
  destruct (arr_states st !! vaddr (get_base_ptr arg)) eqn:E; cbn; [|exact H].
  destruct (decide (vaddr (get_base_ptr arg) = b)) as [->|N].
  - rewrite lookup_insert_eq. eauto.
  - rewrite lookup_insert_ne by exact N. exact H.
Qed.

(** What holds for a base before the rest of the argument loop holds
    after it. *)
Lemma clobber_fold_keeps args : forall st b,
  (arr_states st !! b = None ->
     arr_states (fold_left clobber_arg args st) !! b = None)
  /\ (arr_states st !! b = Some (ArrState ∅ r_top) ->
     arr_states (fold_left clobber_arg args st) !! b = Some (ArrState ∅ r_top))
  /\ (val_ranges st !! b = Some r_top ->
     val_ranges (fold_left clobber_arg args st) !! b = Some r_top)
  /\ (is_Some (arr_states st !! b) ->
     is_Some (arr_states (fold_left clobber_arg args st) !! b)).
Proof.
  induction args as [|arg args IH]; intros st b; cbn [fold_left].
  - auto.
  - destruct (IH (clobber_arg st arg) b) as (I1 & I2 & I3 & I4).
    repeat split; intros H.
    + apply I1, clobber_keeps_no_array, H.
    + apply I2, clobber_keeps_reset_array, H.
    + apply I3, clobber_keeps_top, H.
    + apply I4, clobber_keeps_array, H.
Qed.

Lemma clobber_fold_hits args : forall st arg,
  In arg args -> is_pointer_typed arg = true ->
  let b := vaddr (get_base_ptr arg) in
  let st' := fold_left clobber_arg args st in
  (is_Some (arr_states st !! b) -> arr_states st' !! b = Some (ArrState ∅ r_top))
  /\ (arr_states st !! b = None ->
      arr_states st' !! b = None /\ val_ranges st' !! b = Some r_top).
Proof.
  induction args as [|a args IH]; intros st arg Hin Hptr; [destruct Hin|].
  cbn [fold_left]. destruct Hin as [->|Hin].
  - destruct (clobber_fold_keeps args (clobber_arg st arg) (vaddr (get_base_ptr arg)))
      as (K1 & K2 & K3 & K4).
    split.
    + intros [s Hs]. apply K2. unfold clobber_arg. rewrite Hptr, Hs. cbn.
      apply lookup_insert_eq.
    + intros Hn. split.
      * apply K1, clobber_keeps_no_array, Hn.
      * apply K3. unfold clobber_arg. rewrite Hptr, Hn. cbn. apply lookup_insert_eq.
  - destruct (IH (clobber_arg st a) arg Hin Hptr) as [J1 J2]. split.
    + intros Hs. apply J1, clobber_keeps_array, Hs.
    + intros Hn. apply J2, clobber_keeps_no_array, Hn.
Qed.

(** C3, as the code has it: the result of every call is bound to Top. When
    the called function is known, the base of every pointer-typed argument
    that has an array store gets the store with default Top and no slot,
    and a base without an array store gets the scalar Top. When it is not
    known (an indirect call), nothing but the result changes. *)
Theorem call_clobbers_pointer_args (a : addr) (ty : Ty) (callee : option addr)
    (args : list Value) (st : block_state) (outs : gmap addr block_state) :
  let st' := transfer_inst (CallInst a ty callee args) st outs in
  val_ranges st' !! a = Some r_top
  /\ (callee = None -> st' = set_val st a r_top)
  /\ (forall f arg, callee = Some f -> In arg args -> is_pointer_typed arg = true ->
      let b := vaddr (get_base_ptr arg) in
      (is_Some (arr_states st !! b) -> arr_states st' !! b = Some (ArrState ∅ r_top))
      /\ (arr_states st !! b = None -> val_ranges st' !! b = Some r_top)).
Proof.
  cbn [transfer_inst]. split; [|split].
  - cbn. apply lookup_insert_eq.
  - intros ->. reflexivity.
  - intros f arg -> Hin Hptr.
    destruct (clobber_fold_hits args st arg Hin Hptr) as [J1 J2]. split.
    + intros Hs. cbn. apply J1, Hs.
    + intros Hn. cbn. destruct (J2 Hn) as [_ Hv].
      destruct (decide (a = vaddr (get_base_ptr arg))) as [->|N].
      * apply lookup_insert_eq.
      * rewrite lookup_insert_ne by exact N. exact Hv.
Qed.

Lemma call_clobbers_pointer_args_witness :
  arr_states (transfer_inst Indirect.direct Indirect.state ∅) !! 10%positive
  = Some (ArrState ∅ r_top)
  /\ val_ranges (transfer_inst Indirect.direct Indirect.state ∅) !! 11%positive
     = Some r_top
  /\ transfer_inst Indirect.call Indirect.state ∅ = set_val Indirect.state 40 r_top.
Proof.
  destruct (call_clobbers_pointer_args 40 i32 (Some 50%positive)
              [Indirect.buf; Indirect.x] Indirect.state ∅) as (_ & _ & D).
  destruct (call_clobbers_pointer_args 40 i32 None
              [Indirect.buf; Indirect.x] Indirect.state ∅) as (_ & N & _).
  split; [|split].
  - apply (D 50%positive Indirect.buf eq_refl); [left; reflexivity|reflexivity|].
    vm_compute. eauto.
  - apply (D 50%positive Indirect.x eq_refl);
      [right; left; reflexivity|reflexivity|reflexivity].
  - apply N. reflexivity.
Defined.

(** C3 fails for the indirect call of [Indirect]: the array store and the
    scalar of the two pointer arguments are what they were before the
    call, neither is the unconstrained summary or Top. *)
Lemma indirect_call_keeps_facts :
  arr_states (transfer_inst Indirect.call Indirect.state ∅) !! 10%positive
  = Some Indirect.tracked
  /\ Indirect.tracked <> ArrState ∅ r_top
  /\ val_ranges (transfer_inst Indirect.call Indirect.state ∅) !! 11%positive
     = Some (range_of 1 1)
  /\ range_of 1 1 <> r_top.
Proof.
  repeat split; try (vm_compute; reflexivity).
  - intros H. apply (f_equal default_r) in H. vm_compute in H. discriminate.
  - vm_compute. discriminate.
Qed.

(* ===================================================================== *)
(** ** Branch refinement *)
(* ===================================================================== *)

Lemma swap_inverse p :
  getSwappedPredicate (getInversePredicate p)
  = getInversePredicate (getSwappedPredicate p).
Proof. destruct p; reflexivity. Qed.

(** Inverting the predicate of the comparison inverts the predicate the
    operand pattern yields, and changes nothing else. *)
Lemma match_cmp_inverse p lhs rhs st :
  match_cmp (getInversePredicate p) lhs rhs st
  = (fun '(var, c, q) => (var, c, getInversePredicate q)) <$> match_cmp p lhs rhs st.
Proof.
  unfold match_cmp.
  repeat match goal with
         | |- context [match ?x with _ => _ end] => destruct x
         end; cbn; rewrite ?swap_inverse; reflexivity.
Qed.

Lemma match_cmp_var x key c acmp st r :
  names_variable x key -> val_ranges st !! key = Some r ->
  match_cmp ICMP_SLT x (ConstantInt acmp c) st = Some (key, c, ICMP_SLT)
  /\ match_cmp ICMP_SGT (ConstantInt acmp c) x st = Some (key, c, ICMP_SLT).
Proof.
  intros Hx Hk. destruct Hx; cbn; try (split; reflexivity);
    unfold count; rewrite Hk; rewrite bool_decide_eq_true_2 by eauto;
    split; reflexivity.
Qed.

(** C8: when [x] is tracked with [0,10] and the branch tests [x < 5]
    (written either way round), the state on the true edge has [0,4] for
    [x] and the state on the false edge has [5,10]. The filter of [<] with
    an [int] constant [k] allows the integers from [INT_MIN] to [k - 1],
    and the not-taken edge is refined as the taken edge of the inverted
    comparison. *)
Theorem branch_refinement :
  (forall (x : Value) (key : addr) (st : block_state)
          (a_cmp a_c true_bb false_bb : addr),
      names_variable x key ->
      val_ranges st !! key = Some (range_of 0 10) ->
      true_bb <> false_bb ->
      forall br,
        br = CondBr (ICmpInst a_cmp ICMP_SLT x (ConstantInt a_c 5)) true_bb false_bb
        \/ br = CondBr (ICmpInst a_cmp ICMP_SGT (ConstantInt a_c 5) x) true_bb false_bb ->
        val_ranges (refine_br br true_bb st) !! key = Some (range_of 0 4)
        /\ val_ranges (refine_br br false_bb st) !! key = Some (range_of 5 10)
        /\ reachable (refine_br br true_bb st) = reachable st
        /\ reachable (refine_br br false_bb st) = reachable st)
  /\ (forall (k : Z) (var_r : range),
        is_int k ->
        filter_of ICMP_SLT k var_r
        = if k =? INT_MIN then r_bot else RangeFields INT_MIN (k - 1))
  /\ (forall (k v : Z) (var_r : range),
        is_int k ->
        in_range v (filter_of ICMP_SLT k var_r) <-> INT_MIN <= v <= k - 1)
  /\ (forall (a : addr) (p : Predicate) (lhs rhs : Value) (true_bb false_bb : addr)
             (st : block_state),
        false_bb <> true_bb ->
        refine_br (CondBr (ICmpInst a p lhs rhs) true_bb false_bb) false_bb st
        = refine_br (CondBr (ICmpInst a (getInversePredicate p) lhs rhs)
                            false_bb true_bb) false_bb st).
Proof.
  split; [|split; [|split]].
  - intros x key st a_cmp a_c true_bb false_bb Hx Hk Hne br Hbr.
    destruct (match_cmp_var x key 5 a_c st _ Hx Hk) as [M1 M2].
    assert (Ef : Pos.eqb false_bb true_bb = false) by (apply Pos.eqb_neq; congruence).
    destruct Hbr as [-> | ->]; cbn [refine_br]; rewrite ?M1, ?M2, Hk, Pos.eqb_refl, Ef;
      cbn [getInversePredicate];
      unfold set_refined; cbn [val_ranges reachable];
      rewrite !lookup_insert_eq; repeat split; reflexivity.
  - intros k var_r Hk. cbn [filter_of].
    destruct (Z.eqb_spec k INT_MIN); [reflexivity|].
    apply range_of_id; unfold is_int, INT_MIN, INT_MAX in *; lia.
  - intros k v var_r Hk. cbn [filter_of].
    destruct (Z.eqb_spec k INT_MIN) as [->|Hn].
    + unfold in_range, r_bot, INT_MIN, INT_MAX. cbn. lia.
    + rewrite range_of_id by (unfold is_int, INT_MIN, INT_MAX in *; lia).
      unfold in_range. cbn. reflexivity.
  - intros a p lhs rhs true_bb false_bb st Hne. cbn [refine_br].
    rewrite match_cmp_inverse, Pos.eqb_refl.
    replace (Pos.eqb false_bb true_bb) with false
      by (symmetry; apply Pos.eqb_neq; exact Hne).
    destruct (match_cmp p lhs rhs st) as [[[var c] q]|]; reflexivity.
Qed.

Lemma branch_refinement_witness :
  let st := BlockState {[11%positive := range_of 0 10]} ∅ true in
  let br := CondBr (ICmpInst 60 ICMP_SLT (LoadInst 15 i32 Spin.p) (ConstantInt 61 5))
                   2 3 in
  val_ranges (refine_br br 2 st) !! 11%positive = Some (range_of 0 4)
  /\ val_ranges (refine_br br 3 st) !! 11%positive = Some (range_of 5 10)
  /\ filter_of ICMP_SLT 5 r_top = RangeFields INT_MIN 4.
Proof.
  cbv zeta.
  destruct branch_refinement as (A & B & _).
  assert (V : names_variable (LoadInst 15 i32 Spin.p) 11%positive)
    by exact (nv_load 15 i32 Spin.p).
  assert (K : val_ranges (BlockState {[11%positive := range_of 0 10]} ∅ true)
                !! 11%positive = Some (range_of 0 10))
    by (vm_compute; reflexivity).
  assert (D : 2%positive <> 3%positive) by discriminate.
  destruct (A _ _ _ 60%positive 61%positive _ _ V K D _ (or_introl eq_refl))
    as (T & E & _).
  split; [exact T|]. split; [exact E|].
  apply (B 5 r_top). vm_compute. intuition discriminate.
Defined.

(* ===================================================================== *)
(** ** The pass entry point *)
(* ===================================================================== *)

(** C10: for a function whose name is not "test" the pass returns at once:
    all analyses preserved, the function as it was, nothing printed,
    whatever the iteration bound. *)
Theorem other_functions_untouched (fuel : nat) (F : Function) :
  fn_name F <> "test"%string ->
  run_pass fuel F = Finished (PassResult PA_all F []).
Proof.
  intros Hne. unfold run_pass.
  destruct (String.eqb_spec (fn_name F) "test"); [contradiction|]. reflexivity.
Qed.

Lemma other_functions_untouched_witness :
  run_pass 0 Other.F = Finished (PassResult PA_all Other.F []).
Proof. apply (other_functions_untouched 0 Other.F). discriminate. Defined.

(* ===================================================================== *)
(** ** The instrumentation decision *)
(* ===================================================================== *)

(** For an array shorter than 2^31 elements, [needs_check] answers no
    exactly for Bottom and for the ranges inside [0, size-1]. *)
Lemma needs_check_spec (r : range) (size : Z) :
  range_wf r -> 0 <= size <= INT_MAX ->
  needs_check r size = false
  <-> r = r_bot \/ (0 <= safelane r /\ offlane r <= size - 1).
Proof.
  intros Wr Hs. unfold needs_check.
  destruct (range_eqb r r_bot) eqn:Eb.
  - apply range_eqb_eq in Eb. tauto.
  - apply range_eqb_neq in Eb.
    assert (Hp : proper r) by (apply wf_not_bot_proper; assumption).
    destruct Hp as (P1 & P2 & P3).
    rewrite to_int_id by (unfold is_int, INT_MIN, INT_MAX in *; lia).
    unfold get_low, get_high.
    destruct (Z.eqb_spec size 0) as [->|Hz].
    + split; [discriminate|]. intros [E|[H1 H2]]; [contradiction|lia].
    + destruct (range_neb r r_top && (safelane r >=? 0) && (offlane r <? size)) eqn:Ec.
      * apply andb_true_iff in Ec as [Ec H2]. apply andb_true_iff in Ec as [_ H1].
        apply Z.geb_le in H1. apply Z.ltb_lt in H2. split; [|reflexivity].
        intros _. right. lia.
      * split; [discriminate|]. intros [E|[H1 H2]]; [contradiction|].
        apply andb_false_iff in Ec as [Ec|Ec];
          [apply andb_false_iff in Ec as [Ec|Ec]|].
        -- unfold range_neb in Ec. apply negb_false_iff, range_eqb_eq in Ec.
           subst r. cbn in H1. unfold INT_MIN in H1. lia.
        -- rewrite Z.geb_leb in Ec. apply Z.leb_gt in Ec. lia.
        -- apply Z.ltb_ge in Ec. lia.
Qed.

(** A queue that is empty within [n] iterations is empty within more. *)
Lemma solve_more F : forall n s r,
  solve n F s = Some r -> forall k, solve (n + k) F s = Some r.
Proof.
  induction n as [|n IH]; intros s r H k.
  - cbn in H. destruct (wk s) eqn:E; [|discriminate].
    destruct k; cbn; rewrite E; exact H.
  - cbn in H |- *. destruct (wk s) eqn:E; [exact H|]. apply IH, H.
Qed.

(** C4, at the function of [Twice]: the fixpoint is reached after one
    iteration, the entry block is reachable, and the index of the second
    access is Top there, for which [needs_check] asks for a guard. The run
    guards the first access, reports the second one unreachable and leaves
    it, in [cont.bb], behind the guard of the first only. *)
Theorem second_access_left_unguarded (fuel : nat) :
  solve (S fuel) Twice.F (solver_init Twice.F) = Some Twice.solved
  /\ reachable (state_at (in_state Twice.solved) (bb_addr Twice.entry)) = true
  /\ snd (index_range_at Twice.second Twice.entry (in_state Twice.solved)
                         (out_state Twice.solved)) = r_top
  /\ needs_check r_top 4 = true
  /\ run_pass (S fuel) Twice.F
     = Finished (PassResult PA_none Twice.rewritten Twice.lines).
Proof.
  assert (H : solve (S fuel) Twice.F (solver_init Twice.F) = Some Twice.solved).
  { change (S fuel) with (1 + fuel)%nat. apply solve_more.
    vm_compute. reflexivity. }
  split; [exact H|].
  split; [vm_compute; reflexivity|].
  split; [vm_compute; reflexivity|].
  split; [vm_compute; reflexivity|].
  unfold run_pass. rewrite H. vm_compute. reflexivity.
Qed.

(* ===================================================================== *)
(** ** The worklist loop *)
(* ===================================================================== *)

(** From a set of states that all have a block queued and that one
    iteration does not leave, no number of iterations empties the queue. *)
Lemma solve_stuck (F : Function) (closed : list solver) :
  forallb (advances F closed) closed = true ->
  forall fuel s, In s closed -> solve fuel F s = None.
Proof.
  intros Hall. rewrite forallb_forall in Hall.
  induction fuel as [|fuel IH]; intros s Hs; specialize (Hall s Hs);
    unfold advances in Hall; destruct s as [ins outs [|BB rest] inw]; cbn in *;
    try discriminate; [reflexivity|].
  apply existsb_exists in Hall as (s' & Hin & Heq).
  apply bool_decide_eq_true_1 in Heq. rewrite Heq. apply IH, Hin.
Qed.

(** C9, at the function of [Spin]: the loop header is entered with [0,0]
    and with [0,INT_MAX] for [p] in turn, the solver state after eight
    iterations is the state after five, and the queue is not empty after
    any number of iterations. *)
Theorem worklist_never_drains (fuel : nat) :
  solve fuel Spin.F (solver_init Spin.F) = None
  /\ run_pass fuel Spin.F = OutOfFuel
  /\ iterate 8 Spin.F (solver_init Spin.F) = iterate 5 Spin.F (solver_init Spin.F)
  /\ Spin.p_at_header 5 = Some (range_of 0 0)
  /\ Spin.p_at_header 7 = Some (range_of 0 INT_MAX)
  /\ Spin.p_at_header 8 = Some (range_of 0 0).
Proof.
  assert (H : solve fuel Spin.F (solver_init Spin.F) = None).
  { apply (solve_stuck Spin.F Spin.states).
    - vm_compute. reflexivity.
    - left. reflexivity. }
  split; [exact H|]. split; [unfold run_pass; rewrite H; reflexivity|].
  repeat split; vm_compute; reflexivity.
Qed.

(* ===================================================================== *)
(** ** Further properties: the instrumentation decision *)
(* ===================================================================== *)

Lemma to_int_le v : 0 <= v -> to_int v <= v.
Proof.
  intros H. unfold to_int.
  pose proof (Z.mod_le (v + 2147483648) 4294967296 ltac:(lia) ltac:(lia)). lia.
Qed.

(** X1: when [needs_check] answers no for a range, every integer the
    range allows is a valid index of the array, whatever its length. *)
Theorem skipped_check_is_safe (r : range) (size x : Z) :
  0 <= size -> needs_check r size = false -> in_range x r -> 0 <= x < size.
Proof.
  intros Hs Hn Hx. pose proof (in_range_not_bot _ _ Hx) as Nb.
  unfold needs_check in Hn. rewrite Nb in Hn.
  destruct (Z.eqb_spec size 0); [discriminate|].
  destruct (range_neb r r_top && (get_low r >=? 0) && (get_high r <? to_int size))
    eqn:Ec; [|discriminate].
  apply andb_true_iff in Ec as [Ec H2]. apply andb_true_iff in Ec as [_ H1].
  apply Z.geb_le in H1. apply Z.ltb_lt in H2.
  pose proof (to_int_le size Hs). unfold in_range, get_low, get_high in *. lia.
Qed.

Lemma skipped_check_is_safe_witness : 0 <= 3 < 4.
Proof.
  apply (skipped_check_is_safe (range_of 0 3) 4 3);
    vm_compute; intuition discriminate.
Defined.

(** X2: for a range of the data model and an array of at most [INT_MAX]
    elements, the check is skipped exactly for Bottom and for the ranges
    inside [0, size-1]; for a longer array of less than 2^32 elements,
    whose length the conversion to [int] makes negative, every non-Bottom
    range is checked. *)
Theorem needs_check_exact (r : range) (size : Z) :
  range_wf r ->
  (0 <= size <= INT_MAX ->
   (needs_check r size = false
    <-> r = r_bot \/ (0 <= safelane r /\ offlane r <= size - 1)))
  /\ (INT_MAX < size < 4294967296 -> r <> r_bot -> needs_check r size = true).
Proof.
  intros Wr. split.
  - intros Hs. apply needs_check_spec; assumption.
  - intros Hs Nb. unfold needs_check.
    apply range_eqb_neq in Nb as Eb. rewrite Eb.
    destruct (Z.eqb_spec size 0); [reflexivity|].
    pose proof (wf_not_bot_proper _ Wr Nb) as (P1 & P2 & P3).
    assert (Hneg : to_int size < 0).
    { unfold to_int, INT_MAX in *.
      replace (size + 2147483648) with ((size - 2147483648) + 1 * 4294967296) by lia.
      rewrite Z.mod_add by lia. rewrite Z.mod_small by lia. lia. }
    unfold get_low, get_high.
    destruct (Z.geb_spec (safelane r) 0); [|rewrite andb_false_r; reflexivity].
    destruct (Z.ltb_spec (offlane r) (to_int size)); [lia|].
    rewrite andb_false_r. reflexivity.
Qed.

Lemma needs_check_exact_witness :
  needs_check (range_of 0 3) 4 = false
  /\ needs_check (range_of 0 3) 2147483648 = true.
Proof.
  assert (W : range_wf (range_of 0 3)) by (vm_compute; intuition discriminate).
  destruct (needs_check_exact (range_of 0 3) 4 W) as [E _].
  destruct (needs_check_exact (range_of 0 3) 2147483648 W) as [_ O].
  split.
  - apply E; [vm_compute; intuition discriminate|].
    right. vm_compute. intuition discriminate.
  - apply O; [vm_compute; intuition discriminate|vm_compute; discriminate].
Defined.

(* ===================================================================== *)
(** ** Further properties: operator< *)
(* ===================================================================== *)

(** X3: [operator<] puts Bottom before every range, itself included; on
    the other ranges it is irreflexive, transitive and total, and no
    non-Bottom range is before Bottom. *)
Theorem lt_orders_non_bottom :
  (forall r, Range.lt r_bot r = true)
  /\ (forall r, r <> r_bot -> Range.lt r r = false /\ Range.lt r r_bot = false)
  /\ (forall a b c, a <> r_bot -> b <> r_bot -> c <> r_bot ->
        Range.lt a b = true -> Range.lt b c = true -> Range.lt a c = true)
  /\ (forall a b, a <> r_bot -> b <> r_bot ->
        (Range.lt a b = true /\ Range.lt b a = false)
        \/ a = b
        \/ (Range.lt b a = true /\ Range.lt a b = false)).
Proof.
  split; [|split; [|split]].
  - intros r. reflexivity.
  - intros r Nr. apply range_eqb_neq in Nr. unfold Range.lt. rewrite Nr.
    replace (range_eqb r_bot r_bot) with true by reflexivity.
    split; [|reflexivity].
    rewrite Z.ltb_irrefl, Z.eqb_refl, Z.ltb_irrefl. reflexivity.
  - intros a b c Na Nb Nc. apply range_eqb_neq in Na, Nb, Nc.
    unfold Range.lt. rewrite Na, Nb, Nc.
    rewrite !orb_true_iff, !andb_true_iff, !Z.ltb_lt, !Z.eqb_eq. lia.
  - intros [al ah] [bl bh] Na Nb. apply range_eqb_neq in Na as Ea, Nb as Eb.
    unfold Range.lt. rewrite Ea, Eb. cbn [safelane offlane].
    rewrite !orb_true_iff, !orb_false_iff, !andb_true_iff, !andb_false_iff,
      !Z.ltb_lt, !Z.eqb_eq, !Z.ltb_ge, !Z.eqb_neq.
    destruct (Z.lt_total al bl) as [H|[H|H]]; [left; lia| |right; right; lia].
    destruct (Z.lt_total ah bh) as [H'|[H'|H']];
      [left; lia|right; left; congruence|right; right; lia].
Qed.

Lemma lt_orders_non_bottom_witness :
  Range.lt (range_of 0 5) (range_of 0 5) = false
  /\ Range.lt (range_of 0 5) (range_of 3 4) = true.
Proof.
  destruct lt_orders_non_bottom as (_ & I & T & _).
  assert (N : forall lo hi, 0 <= lo -> lo <= hi <= 10 -> range_of lo hi <> r_bot).
  { intros lo hi H1 H2 E. apply (f_equal safelane) in E. cbn in E.
    rewrite to_int_id in E by (unfold is_int, INT_MIN, INT_MAX; lia).
    unfold INT_MAX in E. lia. }
  split.
  - apply (I (range_of 0 5)). apply N; lia.
  - apply (T (range_of 0 5) (range_of 1 1) (range_of 3 4));
      try (apply N; lia); reflexivity.
Defined.

(* ===================================================================== *)
(** ** Further properties: arr_state::join_arr *)
(* ===================================================================== *)

(** The slots of a joined store: a slot both sides have is the join of the
    two, a slot one side has is joined with the default of the other, and
    there is no other slot. *)
Lemma join_arr_lookup (s1 s2 : arr_state) (i : Z) :
  elem_map (join_arr s1 s2) !! i
  = match elem_map s1 !! i, elem_map s2 !! i with
    | Some r1, Some r2 => Some (Range.join r1 r2)
    | Some r1, None => Some (Range.join r1 (default_r s2))
    | None, Some r2 => Some (Range.join (default_r s1) r2)
    | None, None => None
    end.
Proof.
  unfold join_arr. cbn [elem_map].
  set (f1 := fun (idx : Z) (r1 : range) (acc : gmap Z range) =>
               match elem_map s2 !! idx with
               | Some r2 => <[idx := Range.join r1 r2]> acc
               | None => <[idx := Range.join r1 (default_r s2)]> acc
               end).
  set (f2 := fun (idx : Z) (r2 : range) (acc : gmap Z range) =>
               if count (elem_map s1) idx then acc
               else <[idx := Range.join (default_r s1) r2]> acc).
  assert (H1 : forall m j,
             map_fold f1 ∅ m !! j
             = match m !! j with
               | Some r1 => Some (match elem_map s2 !! j with
                                  | Some r2 => Range.join r1 r2
                                  | None => Range.join r1 (default_r s2)
                                  end)
               | None => None
               end).
  { intros m. apply (map_fold_weak_ind
      (fun acc m => forall j, acc !! j = match m !! j with
               | Some r1 => Some (match elem_map s2 !! j with
                                  | Some r2 => Range.join r1 r2
                                  | None => Range.join r1 (default_r s2)
                                  end)
               | None => None
               end)).
    - intros j. rewrite !lookup_empty. reflexivity.
    - intros k x m' r Hk IH j. unfold f1.
      destruct (decide (k = j)) as [->|N].
      + rewrite lookup_insert_eq.
        destruct (elem_map s2 !! j); rewrite lookup_insert_eq; reflexivity.
      + rewrite (lookup_insert_ne m') by exact N.
        destruct (elem_map s2 !! k); rewrite lookup_insert_ne by exact N; apply IH. }
  assert (H2 : forall m j,
             map_fold f2 (map_fold f1 ∅ (elem_map s1)) m !! j
             = match elem_map s1 !! j with
               | Some _ => map_fold f1 ∅ (elem_map s1) !! j
               | None => (fun r2 => Range.join (default_r s1) r2) <$> m !! j
               end).
  { intros m. apply (map_fold_weak_ind
      (fun acc m => forall j, acc !! j = match elem_map s1 !! j with
               | Some _ => map_fold f1 ∅ (elem_map s1) !! j
               | None => (fun r2 => Range.join (default_r s1) r2) <$> m !! j
               end)).
    - intros j. rewrite lookup_empty. cbn.
      destruct (elem_map s1 !! j) eqn:E; [reflexivity|].
      rewrite H1, E. reflexivity.
    - intros k x m' r Hk IH j. unfold f2, count.
      destruct (elem_map s1 !! k) eqn:Ek.
      + rewrite bool_decide_eq_true_2 by eauto. rewrite IH.
        destruct (elem_map s1 !! j) eqn:Ej; [reflexivity|].
        rewrite lookup_insert_ne by congruence. reflexivity.
      + rewrite bool_decide_eq_false_2 by (intros [? ?]; congruence).
        destruct (decide (k = j)) as [->|N].
        * rewrite !lookup_insert_eq, Ek. reflexivity.
        * rewrite !lookup_insert_ne by exact N. apply IH. }
  rewrite H2, H1.
  destruct (elem_map s1 !! i), (elem_map s2 !! i); reflexivity.
Qed.

(** X4: a load of a constant index from a joined store is the join of the
    loads from the two stores, whether the index has a slot on both sides,
    on one or on none; the default of the joined store is the join of the
    defaults. *)
Theorem join_arr_pointwise (s1 s2 : arr_state) (i : Z) :
  load_at (join_arr s1 s2) i = Range.join (load_at s1 i) (load_at s2 i)
  /\ default_r (join_arr s1 s2) = Range.join (default_r s1) (default_r s2).
Proof.
  split; [|reflexivity].
  unfold load_at. rewrite join_arr_lookup.
  destruct (elem_map s1 !! i), (elem_map s2 !! i); reflexivity.
Qed.

(** X5: [join_arr] is commutative. *)
Theorem join_arr_comm (s1 s2 : arr_state) : join_arr s1 s2 = join_arr s2 s1.
Proof.
  assert (E : elem_map (join_arr s1 s2) = elem_map (join_arr s2 s1)).
  { apply map_eq. intros i. rewrite !join_arr_lookup.
    destruct (elem_map s1 !! i), (elem_map s2 !! i);
      try reflexivity; f_equal; apply join_comm. }
  assert (D : default_r (join_arr s1 s2) = default_r (join_arr s2 s1))
    by apply join_comm.
  destruct (join_arr s1 s2), (join_arr s2 s1). cbn in *. congruence.
Qed.

Lemma range_le_refl a : range_wf a -> range_le a a.
Proof.
  intros Wa. apply wf_cases in Wa as [->|Ha]; [apply range_le_bot|].
  apply range_le_fields; [exact Ha|lia|lia].
Qed.

Lemma join_upper_l a b : range_wf a -> range_wf b -> range_le a (Range.join a b).
Proof.
  intros Wa Wb. rewrite <- (join_bot_r a) at 1.
  apply join_mono; auto using range_le_refl, range_le_bot.
  apply wf_cases. left. reflexivity.
Qed.

Lemma join_upper_r a b : range_wf a -> range_wf b -> range_le b (Range.join a b).
Proof. intros Wa Wb. rewrite join_comm. apply join_upper_l; assumption. Qed.

(* ===================================================================== *)
(** ** Further properties: stores and loads through an index value *)
(* ===================================================================== *)

Lemma load_at_summary d i : load_at (ArrState ∅ d) i = d.
Proof. unfold load_at. cbn [elem_map default_r]. rewrite lookup_empty. reflexivity. Qed.

Lemma load_from_summary binop_r d idx st :
  load_elem_with binop_r (ArrState ∅ d) idx st = d.
Proof.
  unfold load_elem_with. destruct idx; rewrite ?load_at_summary; try reflexivity;
    repeat match goal with
           | |- context [match ?x with _ => _ end] => destruct x
           end; rewrite ?load_at_summary; reflexivity.
Qed.

Lemma unknown_index_weak self idx val st :
  unknown_index idx st -> store_elem self idx val st = store_any self val.
Proof.
  unfold store_elem, store_elem_with, unknown_index.
  destruct idx; try contradiction; try reflexivity;
    cbn [vaddr]; destruct (val_ranges st !! _); intros H; rewrite ?H; reflexivity.
Qed.

(** X6: after a store through an index that cannot be pinned to a slot,
    a load through any index gives the join of the old default and the
    written range; for ranges of the data model that join contains both. *)
Theorem weak_store_covers (self : arr_state) (idx idx' : Value) (val : range)
    (st st' : block_state) :
  unknown_index idx st ->
  load_elem (store_elem self idx val st) idx' st' = Range.join (default_r self) val
  /\ (range_wf (default_r self) -> range_wf val ->
      range_le (default_r self) (Range.join (default_r self) val)
      /\ range_le val (Range.join (default_r self) val)).
Proof.
  intros Hu. rewrite (unknown_index_weak _ _ _ _ Hu). split.
  - unfold load_elem, store_any. apply load_from_summary.
  - intros Wd Wv. split; [apply join_upper_l|apply join_upper_r]; assumption.
Qed.

Lemma weak_store_covers_witness :
  load_elem (store_elem Lost.store Lost.idx Lost.written Lost.state)
            (ConstantInt 9 2) Lost.state
  = Range.join (default_r Lost.store) Lost.written.
Proof.
  apply (weak_store_covers Lost.store Lost.idx (ConstantInt 9 2) Lost.written
                           Lost.state Lost.state).
  vm_compute. reflexivity.
Defined.

Lemma get_range_unreachable val st : reachable st = false -> get_range val st = r_bot.
Proof. intros H. destruct val; cbn [get_range]; rewrite H; reflexivity. Qed.

Lemma get_range_const a c st :
  reachable st = true -> get_range (ConstantInt a c) st = range_of c c.
Proof. intros H. cbn [get_range]. rewrite H. reflexivity. Qed.

Lemma get_range_binop a opc u v st :
  reachable st = true -> val_ranges st !! a = None ->
  get_range (BinaryOperator a opc u v) st
  = eval_binop opc (get_range u st) (get_range v st).
Proof. intros H N. cbn [get_range]. rewrite H, N. reflexivity. Qed.

Lemma exact_singleton k : is_exact (RangeFields k k) = true.
Proof.
  unfold is_exact, get_low, get_high, range_neb, range_eqb. cbn.
  rewrite Z.eqb_refl. cbn. unfold INT_MAX, INT_MIN.
  destruct (Z.eqb_spec k 2147483647), (Z.eqb_spec k (-2147483648)); cbn; try reflexivity.
  lia.
Qed.

(** X7: an index value tracked with the exact range [k,k] acts as the
    constant [k]: a store through either and a load through the other give
    back the stored range. The same holds for an untracked sum of two
    constants whose value is an [int]. *)
Theorem exact_index_roundtrip (self : arr_state) (v : range) (st : block_state) :
  (forall (idx : Value) (k : Z) (a : addr),
      plain_index idx -> val_ranges st !! vaddr idx = Some (RangeFields k k) ->
      store_elem self idx v st = store_elem self (ConstantInt a k) v st
      /\ load_elem self idx st = load_elem self (ConstantInt a k) st
      /\ load_elem (store_elem self idx v st) (ConstantInt a k) st = v
      /\ load_elem (store_elem self (ConstantInt a k) v st) idx st = v)
  /\ (forall (b a a1 a2 : addr) (c1 c2 : Z),
        reachable st = true -> val_ranges st !! b = None ->
        is_int c1 -> is_int c2 -> is_int (c1 + c2) ->
        let idx := BinaryOperator b Add (ConstantInt a1 c1) (ConstantInt a2 c2) in
        load_elem (store_elem self idx v st) (ConstantInt a (c1 + c2)) st = v
        /\ load_elem (store_elem self (ConstantInt a (c1 + c2)) v st) idx st = v).
Proof.
  split.
  - intros idx k a Hp Hk.
    assert (S : store_elem self idx v st = store_at self k v).
    { unfold store_elem, store_elem_with. destruct idx; try contradiction;
        cbn [vaddr] in *; rewrite Hk, exact_singleton; reflexivity. }
    assert (L : forall s, load_elem s idx st = load_at s k).
    { intros s. unfold load_elem, load_elem_with. destruct idx; try contradiction;
        cbn [vaddr] in *; rewrite Hk, exact_singleton; reflexivity. }
    rewrite S, !L. unfold load_elem, store_elem, load_elem_with, store_elem_with.
    repeat split; unfold load_at, store_at; cbn [elem_map];
      rewrite lookup_insert_eq; reflexivity.
  - intros b a a1 a2 c1 c2 Hr Hb H1 H2 H12 idx.
    assert (G : get_range idx st = RangeFields (c1 + c2) (c1 + c2)).
    { unfold idx. rewrite get_range_binop by assumption.
      rewrite !get_range_const by assumption. cbn [eval_binop].
      unfold Range.add.
      assert (N : forall c, is_int c -> range_eqb (range_of c c) r_bot = false).
      { intros c Hc. rewrite range_of_id by assumption.
        apply range_eqb_neq. intros E. injection E as E1 E2.
        unfold INT_MAX, INT_MIN in *. lia. }
      rewrite !N by assumption. cbn [orb].
      rewrite (range_of_id c1 c1), (range_of_id c2 c2) by assumption.
      cbn [safelane offlane]. rewrite int_sum_fits by assumption.
      assert (C : clamp_i32 (c1 + c2) = c1 + c2).
      { unfold clamp_i32, is_int, INT_MIN, INT_MAX in *.
        destruct (Z.gtb_spec (c1 + c2) 2147483647); [lia|].
        destruct (Z.ltb_spec (c1 + c2) (-2147483648)); lia. }
      rewrite C. apply range_of_id; assumption. }
    assert (S : store_elem self idx v st = store_at self (c1 + c2) v).
    { unfold store_elem. rewrite G. unfold idx, store_elem_with.
      rewrite exact_singleton. reflexivity. }
    assert (L : forall s, load_elem s idx st = load_at s (c1 + c2)).
    { intros s. unfold load_elem. rewrite G. unfold idx, load_elem_with.
      rewrite exact_singleton. reflexivity. }
    rewrite S, L. unfold load_elem, store_elem, load_elem_with, store_elem_with.
    split; unfold load_at, store_at; cbn [elem_map];
      rewrite lookup_insert_eq; reflexivity.
Qed.

Lemma exact_index_roundtrip_witness :
  let st := BlockState {[5%positive := RangeFields 2 2]} ∅ true in
  load_elem (store_elem Lost.store Lost.idx (range_of 4 9) st) (ConstantInt 9 2) st
  = range_of 4 9
  /\ load_elem (store_elem Lost.store
                  (BinaryOperator 8 Add (ConstantInt 6 1) (ConstantInt 7 1))
                  (range_of 4 9) st) (ConstantInt 9 (1 + 1)) st
     = range_of 4 9.
Proof.
  cbv zeta.
  destruct (exact_index_roundtrip Lost.store (range_of 4 9)
              (BlockState {[5%positive := RangeFields 2 2]} ∅ true)) as [T A].
  split.
  - apply (T Lost.idx 2 9%positive I). vm_compute. reflexivity.
  - apply (A 8%positive 9%positive 6%positive 7%positive 1 1);
      vm_compute; intuition discriminate.
Defined.

(* ===================================================================== *)
(** ** Further properties: the data-model invariant *)
(* ===================================================================== *)

Lemma to_int_is_int v : is_int (to_int v).
Proof.
  unfold is_int, to_int, INT_MIN, INT_MAX.
  pose proof (Z.mod_pos_bound (v + 2147483648) 4294967296 ltac:(lia)). lia.
Qed.

Lemma wf_bot : range_wf r_bot.
Proof. apply wf_cases. left. reflexivity. Qed.

Lemma wf_top : range_wf r_top.
Proof.
  apply wf_cases. right. unfold proper, is_int, r_top, INT_MIN, INT_MAX. cbn. lia.
Qed.

Lemma wf_of_le lo hi : to_int lo <= to_int hi -> range_wf (range_of lo hi).
Proof.
  intros H. apply wf_cases. right. unfold range_of.
  apply proper_fields; auto using to_int_is_int.
Qed.

Lemma wf_const c : range_wf (range_of c c).
Proof. apply wf_of_le. lia. Qed.

Lemma wf_fields lo hi : is_int lo -> is_int hi -> lo <= hi -> range_wf (RangeFields lo hi).
Proof. intros. apply wf_cases. right. apply proper_fields; assumption. Qed.

Lemma add_wf a b : range_wf a -> range_wf b -> range_wf (Range.add a b).
Proof.
  intros Wa Wb. apply wf_cases in Wa as [->|Ha]; [apply wf_bot|].
  apply wf_cases in Wb as [->|Hb].
  { unfold Range.add. replace (range_eqb r_bot r_bot) with true by reflexivity.
    rewrite orb_true_r. apply wf_bot. }
  unfold Range.add. rewrite (proper_not_bot _ Ha), (proper_not_bot _ Hb). cbn [orb].
  destruct Ha as (A1 & A2 & A3), Hb as (B1 & B2 & B3).
  rewrite !int_sum_fits by assumption. rewrite range_of_clamp.
  apply wf_fields; auto using clamp_is_int. apply clamp_mono. lia.
Qed.

Lemma sub_wf a b : range_wf a -> range_wf b -> range_wf (Range.sub a b).
Proof.
  intros Wa Wb. apply wf_cases in Wa as [->|Ha]; [apply wf_bot|].
  apply wf_cases in Wb as [->|Hb].
  { unfold Range.sub. replace (range_eqb r_bot r_bot) with true by reflexivity.
    rewrite orb_true_r. apply wf_bot. }
  unfold Range.sub. rewrite (proper_not_bot _ Ha), (proper_not_bot _ Hb). cbn [orb].
  destruct Ha as (A1 & A2 & A3), Hb as (B1 & B2 & B3).
  rewrite !int_diff_fits by assumption. rewrite range_of_clamp.
  apply wf_fields; auto using clamp_is_int. apply clamp_mono. lia.
Qed.

Lemma mul_wf a b : range_wf a -> range_wf b -> range_wf (Range.mul a b).
Proof.
  intros Wa Wb. apply wf_cases in Wa as [->|Ha]; [apply wf_bot|].
  apply wf_cases in Wb as [->|Hb].
  { unfold Range.mul. replace (range_eqb r_bot r_bot) with true by reflexivity.
    rewrite orb_true_r. apply wf_bot. }
  unfold Range.mul. rewrite (proper_not_bot _ Ha), (proper_not_bot _ Hb). cbn [orb].
  rewrite clamp_min4, clamp_max4, range_of_clamp.
  apply wf_fields; auto using clamp_is_int. apply clamp_mono.
  unfold min4, max4. lia.
Qed.

(** X8: every operator of the lattice maps ranges of the data model to
    ranges of the data model: [int] bounds, and Bottom or [lo <= hi]. *)
Theorem operators_closed (a b : range) :
  range_wf a -> range_wf b ->
  range_wf (Range.add a b) /\ range_wf (Range.sub a b) /\ range_wf (Range.mul a b)
  /\ range_wf (Range.join a b) /\ range_wf (Range.intersect a b).
Proof.
  intros Wa Wb.
  split; [apply add_wf|split; [apply sub_wf|split; [apply mul_wf|
    split; [apply join_wf|apply intersect_wf]]]]; assumption.
Qed.

Lemma operators_closed_witness :
  range_wf (Range.mul (range_of (-3) 4) (range_of INT_MIN 7))
  /\ range_wf (Range.intersect (range_of (-3) 4) (range_of INT_MIN 7)).
Proof.
  destruct (operators_closed (range_of (-3) 4) (range_of INT_MIN 7))
    as (_ & _ & M & _ & I); [apply wf_of_le; vm_compute; discriminate..|].
  split; assumption.
Defined.

Lemma eval_binop_wf opc a b : range_wf a -> range_wf b -> range_wf (eval_binop opc a b).
Proof.
  intros Wa Wb. destruct opc; cbn; auto using add_wf, sub_wf, mul_wf, wf_top.
Qed.

Lemma load_at_wf a i : arr_wf a -> range_wf (load_at a i).
Proof.
  intros [Wd Ws]. unfold load_at. destruct (elem_map a !! i) eqn:E; eauto.
Qed.

Lemma load_elem_with_wf binop_r a idx st :
  arr_wf a -> range_wf (load_elem_with binop_r a idx st).
Proof.
  intros Wa. pose proof Wa as [Wd _]. unfold load_elem_with.
  destruct idx; auto using load_at_wf;
    repeat match goal with
           | |- context [match ?x with _ => _ end] => destruct x
           end; auto using load_at_wf.
Qed.

Lemma store_at_wf a i v : arr_wf a -> range_wf v -> arr_wf (store_at a i v).
Proof.
  intros [Wd Ws] Wv. split; [exact Wd|]. intros j r. unfold store_at. cbn.
  destruct (decide (i = j)) as [->|N].
  - rewrite lookup_insert_eq. congruence.
  - rewrite lookup_insert_ne by exact N. apply Ws.
Qed.

Lemma store_any_wf a v : arr_wf a -> range_wf v -> arr_wf (store_any a v).
Proof.
  intros [Wd Ws] Wv. split; [apply join_wf; assumption|].
  intros j r. unfold store_any. cbn. rewrite lookup_empty. discriminate.
Qed.

Lemma store_elem_with_wf binop_r a idx v st :
  arr_wf a -> range_wf v -> arr_wf (store_elem_with binop_r a idx v st).
Proof.
  intros Wa Wv. unfold store_elem_with.
  destruct idx; auto using store_at_wf, store_any_wf;
    repeat match goal with
           | |- context [match ?x with _ => _ end] => destruct x
           end; auto using store_at_wf, store_any_wf.
Qed.

Lemma lookup_or_top_wf st a : state_wf st -> range_wf (lookup_or_top st a).
Proof.
  intros [Wv _]. unfold lookup_or_top.
  destruct (val_ranges st !! a) eqn:E; eauto using wf_top.
Qed.

Lemma get_range_wf val st : state_wf st -> range_wf (get_range val st).
Proof.
  intros W. pose proof W as [Wv Wa].
  destruct (reachable st) eqn:Hr;
    [|rewrite get_range_unreachable by assumption; apply wf_bot].
  induction val; cbn [get_range]; rewrite Hr; cbn [negb];
    auto using wf_const, wf_top, lookup_or_top_wf.
  - destruct (val_ranges st !! a) eqn:E; eauto using eval_binop_wf.
  - assert (B : forall base, range_wf match val_ranges st !! vaddr base with
                                      | Some r => r
                                      | None => lookup_or_top st a
                                      end).
    { intros base. destruct (val_ranges st !! vaddr base) eqn:E;
        eauto using lookup_or_top_wf. }
    destruct val; auto.
    destruct (arr_states st !! vaddr val) eqn:E; auto.
    destruct indices as [|i0 [|idx rest]]; auto.
    apply load_elem_with_wf. eauto.
Qed.

Lemma state_new_wf : state_wf block_state_new.
Proof. split; intros ? ?; cbn; rewrite lookup_empty; discriminate. Qed.

Lemma state_at_wf states b : states_wf states -> state_wf (state_at states b).
Proof.
  intros W. unfold state_at. destruct (states !! b) eqn:E; cbn; eauto using state_new_wf.
Qed.

Lemma get_pred_range_wf val b outs :
  states_wf outs -> range_wf (get_pred_range val b outs).
Proof.
  intros W. pose proof (state_at_wf outs b W) as Ws. pose proof Ws as [Wv Wa].
  induction val; cbn [get_pred_range];
    destruct (reachable (state_at outs b)); cbn [negb];
    auto using wf_bot, wf_const, wf_top, lookup_or_top_wf.
  - destruct (val_ranges (state_at outs b) !! a) eqn:E; eauto using eval_binop_wf.
  - destruct (val_ranges (state_at outs b) !! a) eqn:E; eauto.
    destruct val; auto using lookup_or_top_wf.
    destruct (arr_states (state_at outs b) !! vaddr val) eqn:Ea;
      auto using lookup_or_top_wf.
    destruct (second_index indices); auto using lookup_or_top_wf.
    apply load_elem_with_wf. eauto.
Qed.

(** X9: in a state whose ranges are all ranges of the data model, the
    evaluator returns a range of the data model for every value; so does
    the evaluator of phi operands over a map of such states. *)
Theorem evaluators_keep_model (val : Value) :
  (forall st, state_wf st -> range_wf (get_range val st))
  /\ (forall b outs, states_wf outs -> range_wf (get_pred_range val b outs)).
Proof.
  split; [intros st; apply get_range_wf|intros b outs; apply get_pred_range_wf].
Qed.

(* ===================================================================== *)
(** ** Further properties: transfer_inst *)
(* ===================================================================== *)

Lemma set_val_wf st v r : state_wf st -> range_wf r -> state_wf (set_val st v r).
Proof.
  intros [Wv Wa] Wr. split; [|exact Wa]. intros k r'. cbn.
  destruct (decide (v = k)) as [->|N].
  - rewrite lookup_insert_eq. congruence.
  - rewrite lookup_insert_ne by exact N. apply Wv.
Qed.

Lemma set_arr_wf st v a : state_wf st -> arr_wf a -> state_wf (set_arr st v a).
Proof.
  intros [Wv Wa] Wr. split; [exact Wv|]. intros k a'. cbn.
  destruct (decide (v = k)) as [->|N].
  - rewrite lookup_insert_eq. congruence.
  - rewrite lookup_insert_ne by exact N. apply Wa.
Qed.

Lemma summary_wf : arr_wf (ArrState ∅ r_top).
Proof. split; [apply wf_top|]. intros i r. cbn. rewrite lookup_empty. discriminate. Qed.

Lemma fresh_array_wf : arr_wf (ArrState ∅ (range_of 0 0)).
Proof. split; [apply wf_const|]. intros i r. cbn. rewrite lookup_empty. discriminate. Qed.

Lemma clobber_arg_wf st arg : state_wf st -> state_wf (clobber_arg st arg).
Proof.
  intros W. unfold clobber_arg. destruct (is_pointer_typed arg); [|exact W].
  destruct (arr_states st !! vaddr (get_base_ptr arg));
    auto using set_arr_wf, set_val_wf, summary_wf, wf_top.
Qed.

Lemma clobber_fold_wf args : forall st,
  state_wf st -> state_wf (fold_left clobber_arg args st).
Proof.
  induction args as [|a args IH]; intros st W; cbn; auto using clobber_arg_wf.
Qed.

Lemma phi_merge_wf outs incoming : forall merged,
  states_wf outs -> range_wf merged ->
  range_wf (fold_left (fun merged '(val, pred_bb) =>
                         if reachable (state_at outs pred_bb) then
                           let pred_r := get_pred_range val pred_bb outs in
                           Range.join merged pred_r
                         else merged) incoming merged).
Proof.
  induction incoming as [|[val b] incoming IH]; intros merged Wo Wm; cbn; [exact Wm|].
  apply IH; [exact Wo|].
  destruct (reachable (state_at outs b)); [|exact Wm].
  apply join_wf; auto using get_pred_range_wf.
Qed.

Lemma transfer_inst_wf inst st outs :
  state_wf st -> states_wf outs -> state_wf (transfer_inst inst st outs).
Proof.
  intros W Wo. pose proof W as [Wv Wa].
  destruct inst; cbn [transfer_inst]; auto.
  - apply set_val_wf; auto using eval_binop_wf, get_range_wf.
  - destruct inst; auto using set_val_wf, get_range_wf.
    destruct (arr_states st !! vaddr inst) eqn:E; auto using set_val_wf, get_range_wf.
    destruct (second_index indices); auto.
    apply set_val_wf; [exact W|]. apply load_elem_with_wf. eauto.
  - destruct (isArrayTy allocated); auto using set_arr_wf, set_val_wf, fresh_array_wf, wf_top.
  - destruct inst2; auto using set_val_wf, get_range_wf.
    cbn [get_base_ptr].
    destruct (arr_states st !! vaddr inst2) eqn:E; auto using set_val_wf, get_range_wf.
    destruct (second_index indices); auto using set_val_wf, get_range_wf.
    apply set_arr_wf; [exact W|]. apply store_elem_with_wf; eauto using get_range_wf.
  - apply set_val_wf; [|apply wf_top].
    destruct callee; auto using clobber_fold_wf.
  - apply set_val_wf; [exact W|]. apply phi_merge_wf; auto using wf_bot.
  - apply set_val_wf; [exact W|]. apply join_wf; apply get_range_wf; exact W.
  - apply set_val_wf; auto using get_range_wf.
Qed.

Lemma transfer_block_wf insts : forall st outs,
  state_wf st -> states_wf outs -> state_wf (transfer_block insts st outs).
Proof.
  unfold transfer_block.
  induction insts as [|i insts IH]; intros st outs W Wo; cbn; auto using transfer_inst_wf.
Qed.

(** X10: the transfer function keeps the data-model invariant: from a
    state and a map of out-states that hold only ranges of the data model,
    every instruction, and every sequence of instructions, gives such a
    state. *)
Theorem transfer_keeps_model (insts : list Value) (inst : Value) (st : block_state)
    (outs : gmap addr block_state) :
  state_wf st -> states_wf outs ->
  state_wf (transfer_inst inst st outs) /\ state_wf (transfer_block insts st outs).
Proof.
  intros W Wo. split; [apply transfer_inst_wf|apply transfer_block_wf]; assumption.
Qed.

Lemma extends_refl st : extends st st.
Proof. repeat split; auto. Qed.

Lemma extends_trans a b c : extends a b -> extends b c -> extends a c.
Proof.
  intros (R1 & V1 & A1) (R2 & V2 & A2). repeat split; [congruence|auto|auto].
Qed.

Lemma extends_set_val st v r : extends st (set_val st v r).
Proof.
  repeat split; [|auto]. intros k H. cbn.
  destruct (decide (v = k)) as [->|N].
  - rewrite lookup_insert_eq. eauto.
  - rewrite lookup_insert_ne by exact N. exact H.
Qed.

Lemma extends_set_arr st v a : extends st (set_arr st v a).
Proof.
  repeat split; [auto|]. intros k H. cbn.
  destruct (decide (v = k)) as [->|N].
  - rewrite lookup_insert_eq. eauto.
  - rewrite lookup_insert_ne by exact N. exact H.
Qed.

Lemma extends_clobber_fold args : forall st, extends st (fold_left clobber_arg args st).
Proof.
  induction args as [|a args IH]; intros st; cbn; [apply extends_refl|].
  eapply extends_trans; [|apply IH]. unfold clobber_arg.
  destruct (is_pointer_typed a); [|apply extends_refl].
  destruct (arr_states st !! vaddr (get_base_ptr a));
    auto using extends_set_arr, extends_set_val.
Qed.

Lemma extends_transfer_inst inst st outs : extends st (transfer_inst inst st outs).
Proof.
  destruct inst; cbn [transfer_inst];
    auto using extends_refl, extends_set_val, extends_set_arr.
  - destruct inst; auto using extends_set_val.
    destruct (arr_states st !! vaddr inst); auto using extends_set_val.
    destruct (second_index indices); auto using extends_refl, extends_set_val.
  - destruct (isArrayTy allocated); auto using extends_set_val, extends_set_arr.
  - destruct inst2; auto using extends_set_val. cbn [get_base_ptr].
    destruct (arr_states st !! vaddr inst2); auto using extends_set_val.
    destruct (second_index indices); auto using extends_set_val, extends_set_arr.
  - eapply extends_trans; [|apply extends_set_val].
    destruct callee; auto using extends_refl, extends_clobber_fold.
Qed.

(** X11: no instruction changes the reachability of the state or drops a
    tracked scalar or array: the state after an instruction, and after a
    sequence of instructions, tracks at least what the state before did. *)
Theorem transfer_only_adds (insts : list Value) (inst : Value) (st : block_state)
    (outs : gmap addr block_state) :
  extends st (transfer_inst inst st outs)
  /\ extends st (transfer_block insts st outs).
Proof.
  split; [apply extends_transfer_inst|].
  unfold transfer_block. revert st.
  induction insts as [|i insts IH]; intros st; cbn; [apply extends_refl|].
  eapply extends_trans; [apply (extends_transfer_inst i st outs)|apply IH].
Qed.

Lemma empty_state_wf b : state_wf (BlockState ∅ ∅ b).
Proof. split; intros ? ? H; cbn in H; rewrite lookup_empty in H; discriminate. Qed.

Lemma empty_states_wf : states_wf ∅.
Proof. intros b st H. rewrite lookup_empty in H. discriminate. Qed.

Lemma singleton_state_wf k r b : range_wf r -> state_wf (BlockState {[k := r]} ∅ b).
Proof.
  intros W. split.
  - intros v r' H. cbn in H. destruct (decide (k = v)) as [->|N].
    + rewrite lookup_singleton_eq in H. congruence.
    + rewrite lookup_singleton_ne in H by exact N. discriminate.
  - intros v a H. cbn in H. rewrite lookup_empty in H. discriminate.
Qed.

Lemma evaluators_keep_model_witness :
  range_wf (get_range Spin.idx (BlockState {[11%positive := range_of 0 3]} ∅ true))
  /\ range_wf (get_pred_range Spin.idx 2 ∅).
Proof.
  destruct (evaluators_keep_model Spin.idx) as [G P]. split.
  - apply G, singleton_state_wf, wf_of_le. vm_compute. discriminate.
  - apply P, empty_states_wf.
Defined.

Lemma transfer_keeps_model_witness :
  state_wf (transfer_block (bb_insts Spin.entry) (BlockState ∅ ∅ true) ∅).
Proof.
  apply (transfer_keeps_model (bb_insts Spin.entry) Spin.a (BlockState ∅ ∅ true) ∅).
  - apply empty_state_wf.
  - apply empty_states_wf.
Defined.

(* ===================================================================== *)
(** ** Further properties: refinement along branch and switch edges *)
(* ===================================================================== *)

Lemma inverse_predicate_negates p x y :
  icmp_holds (getInversePredicate p) x y = negb (icmp_holds p x y).
Proof.
  destruct p; cbn; rewrite ?negb_involutive; try reflexivity;
    rewrite ?Z.gtb_ltb, ?Z.geb_leb, ?Z.leb_antisym, ?Z.ltb_antisym,
      ?negb_involutive; reflexivity.
Qed.

Lemma swapped_predicate_swaps p x y :
  icmp_holds (getSwappedPredicate p) x y = icmp_holds p y x.
Proof.
  destruct p; cbn; rewrite ?Z.gtb_ltb, ?Z.geb_leb; try reflexivity;
    rewrite Z.eqb_sym; reflexivity.
Qed.

Lemma filter_of_wf q k r : range_wf (filter_of q k r).
Proof.
  destruct q; cbn [filter_of]; auto using wf_top, wf_const.
  - destruct (_ && _); auto using wf_top, wf_bot.
  - destruct (k =? INT_MAX); [apply wf_bot|]. apply wf_of_le.
    pose proof (to_int_is_int (k + 1)).
    rewrite (to_int_id INT_MAX) by (unfold is_int, INT_MIN, INT_MAX; lia).
    unfold is_int in *. lia.
  - apply wf_of_le. pose proof (to_int_is_int k).
    rewrite (to_int_id INT_MAX) by (unfold is_int, INT_MIN, INT_MAX; lia).
    unfold is_int in *. lia.
  - destruct (k =? INT_MIN); [apply wf_bot|]. apply wf_of_le.
    pose proof (to_int_is_int (k - 1)).
    rewrite (to_int_id INT_MIN) by (unfold is_int, INT_MIN, INT_MAX; lia).
    unfold is_int in *. lia.
  - apply wf_of_le. pose proof (to_int_is_int k).
    rewrite (to_int_id INT_MIN) by (unfold is_int, INT_MIN, INT_MAX; lia).
    unfold is_int in *. lia.
Qed.

(** The filter of a predicate allows every [int] for which the comparison
    with the constant holds. *)
Lemma filter_of_sound q k x r :
  is_int k -> is_int x -> in_range x r -> icmp_holds q x k = true ->
  in_range x (filter_of q k r).
Proof.
  intros Hk Hx Hr Hq.
  assert (T : in_range x r_top) by (unfold in_range, r_top; cbn; apply Hx).
  unfold is_int, INT_MIN, INT_MAX in Hk, Hx.
  destruct q; cbn [filter_of icmp_holds] in *; try exact T.
  - apply Z.eqb_eq in Hq. subst k. rewrite range_of_id by exact Hx.
    unfold in_range. cbn. lia.
  - apply negb_true_iff, Z.eqb_neq in Hq.
    destruct ((get_low r =? k) && (get_high r =? k)) eqn:E; [|exact T].
    apply andb_true_iff in E as [E1 E2]. apply Z.eqb_eq in E1, E2.
    unfold in_range, get_low, get_high in *. lia.
  - rewrite Z.gtb_ltb in Hq. apply Z.ltb_lt in Hq.
    destruct (Z.eqb_spec k INT_MAX); [unfold INT_MAX in *; lia|].
    rewrite range_of_id by (unfold is_int, INT_MIN, INT_MAX; lia).
    unfold in_range, INT_MAX. cbn. lia.
  - rewrite Z.geb_leb in Hq. apply Z.leb_le in Hq.
    rewrite range_of_id by (unfold is_int, INT_MIN, INT_MAX; lia).
    unfold in_range, INT_MAX. cbn. lia.
  - apply Z.ltb_lt in Hq.
    destruct (Z.eqb_spec k INT_MIN); [unfold INT_MIN in *; lia|].
    rewrite range_of_id by (unfold is_int, INT_MIN, INT_MAX; lia).
    unfold in_range, INT_MIN. cbn. lia.
  - apply Z.leb_le in Hq.
    rewrite range_of_id by (unfold is_int, INT_MIN, INT_MAX; lia).
    unfold in_range, INT_MIN. cbn. lia.
Qed.

Lemma in_range_proper x r : range_wf r -> in_range x r -> proper r.
Proof.
  intros W H. apply wf_not_bot_proper; [exact W|].
  apply range_eqb_neq. exact (in_range_not_bot _ _ H).
Qed.

Lemma intersect_member x a b :
  range_wf a -> range_wf b -> in_range x a -> in_range x b ->
  in_range x (Range.intersect a b).
Proof.
  intros Wa Wb Ha Hb.
  pose proof (in_range_proper _ _ Wa Ha) as Pa.
  pose proof (in_range_proper _ _ Wb Hb) as Pb.
  unfold in_range in *.
  destruct (intersect_overlap a b Pa Pb ltac:(lia)) as [E _]. rewrite E. cbn. lia.
Qed.

Lemma join_member_l x a b :
  range_wf a -> range_wf b -> in_range x a -> in_range x (Range.join a b).
Proof.
  intros Wa Wb Ha. apply (proj1 (range_le_subset a (Range.join a b) Wa
                                   (join_wf a b Wa Wb))); [|exact Ha].
  apply join_upper_l; assumption.
Qed.

Lemma join_member_r x a b :
  range_wf a -> range_wf b -> in_range x b -> in_range x (Range.join a b).
Proof. intros Wa Wb Hb. rewrite join_comm. apply join_member_l; assumption. Qed.

Lemma set_refined_member st key refined x :
  in_range x refined ->
  val_ranges (set_refined st key refined) !! key = Some refined
  /\ reachable (set_refined st key refined) = reachable st.
Proof.
  intros H. unfold set_refined. cbn [val_ranges reachable].
  rewrite lookup_insert_eq, (in_range_not_bot _ _ H). split; reflexivity.
Qed.

(** X12: when [refine_br] recognises the comparison as "variable [q]
    constant" and the variable is tracked with a range of the data model,
    the state refined for the edge a concrete value takes still allows that
    value and is as reachable as before: the true edge for a value the
    comparison holds for, the false edge otherwise. *)
Theorem branch_refinement_keeps_takers (acmp : addr) (p q : Predicate)
    (lhs rhs : Value) (true_bb false_bb key : addr) (k x : Z) (var_r : range)
    (st : block_state) :
  match_cmp p lhs rhs st = Some (key, k, q) ->
  val_ranges st !! key = Some var_r -> range_wf var_r ->
  is_int k -> in_range x var_r -> true_bb <> false_bb ->
  let br := CondBr (ICmpInst acmp p lhs rhs) true_bb false_bb in
  let succ := if icmp_holds q x k then true_bb else false_bb in
  exists r', val_ranges (refine_br br succ st) !! key = Some r'
             /\ in_range x r'
             /\ reachable (refine_br br succ st) = reachable st.
Proof.
  intros Hm Hv Wr Hk Hx Hne br succ.
  assert (Ix : is_int x).
  { destruct Wr as (W1 & W2 & _). unfold is_int, in_range in *. lia. }
  unfold br, succ. cbn [refine_br]. rewrite Hm, Hv.
  destruct (icmp_holds q x k) eqn:Hq.
  - rewrite Pos.eqb_refl.
    assert (M : in_range x (Range.intersect var_r (filter_of q k var_r))).
    { apply intersect_member; auto using filter_of_wf, filter_of_sound. }
    destruct (set_refined_member st key _ x M) as [L R]. eauto.
  - replace (Pos.eqb false_bb true_bb) with false
      by (symmetry; apply Pos.eqb_neq; congruence).
    assert (M : in_range x (Range.intersect var_r
                              (filter_of (getInversePredicate q) k var_r))).
    { apply intersect_member; auto using filter_of_wf.
      apply filter_of_sound; auto.
      rewrite inverse_predicate_negates, Hq. reflexivity. }
    destruct (set_refined_member st key _ x M) as [L R]. eauto.
Qed.

Lemma branch_refinement_keeps_takers_witness :
  let st := BlockState {[11%positive := range_of 0 10]} ∅ true in
  let br := CondBr (ICmpInst 60 ICMP_SGE (ConstantInt 61 5) (LoadInst 15 i32 Spin.p))
                   2 3 in
  exists r', val_ranges (refine_br br 2 st) !! 11%positive = Some r'
             /\ in_range 4 r' /\ reachable (refine_br br 2 st) = reachable st.
Proof.
  cbv zeta.
  apply (branch_refinement_keeps_takers 60 ICMP_SGE ICMP_SLE (ConstantInt 61 5)
           (LoadInst 15 i32 Spin.p) 2 3 11 5 4 (range_of 0 10)
           (BlockState {[11%positive := range_of 0 10]} ∅ true));
    vm_compute; intuition discriminate.
Defined.

Lemma case_fold_wf succ cases : forall acc,
  range_wf acc ->
  range_wf (fold_left (fun case_r '(val, dest) =>
                         if Pos.eqb dest succ
                         then Range.join case_r (range_of val val)
                         else case_r) cases acc).
Proof.
  induction cases as [|[v d] cases IH]; intros acc W; cbn; [exact W|].
  apply IH. destruct (Pos.eqb d succ); auto using join_wf, wf_const.
Qed.

Lemma case_fold_keeps succ x cases : forall acc,
  range_wf acc -> in_range x acc ->
  in_range x (fold_left (fun case_r '(val, dest) =>
                           if Pos.eqb dest succ
                           then Range.join case_r (range_of val val)
                           else case_r) cases acc).
Proof.
  induction cases as [|[v d] cases IH]; intros acc W H; cbn; [exact H|].
  destruct (Pos.eqb d succ).
  - apply IH; auto using join_wf, wf_const, join_member_l.
  - apply IH; assumption.
Qed.

Lemma case_fold_hits succ x cases : forall acc,
  range_wf acc -> is_int x -> In (x, succ) cases ->
  in_range x (fold_left (fun case_r '(val, dest) =>
                           if Pos.eqb dest succ
                           then Range.join case_r (range_of val val)
                           else case_r) cases acc).
Proof.
  induction cases as [|[v d] cases IH]; intros acc W Hx Hin; [destruct Hin|].
  cbn. destruct Hin as [E|Hin].
  - injection E as -> ->. rewrite Pos.eqb_refl.
    apply case_fold_keeps; auto using join_wf, wf_const.
    apply join_member_r; auto using wf_const.
    rewrite range_of_id by assumption. unfold in_range. cbn. lia.
  - apply IH; auto. destruct (Pos.eqb d succ); auto using join_wf, wf_const.
Qed.

Lemma case_fold_none succ cases : forall acc,
  (forall v, ~ In (v, succ) cases) ->
  fold_left (fun case_r '(val, dest) =>
               if Pos.eqb dest succ
               then Range.join case_r (range_of val val)
               else case_r) cases acc = acc.
Proof.
  induction cases as [|[v d] cases IH]; intros acc H; cbn; [reflexivity|].
  destruct (Pos.eqb_spec d succ) as [->|N].
  - exfalso. apply (H v). left. reflexivity.
  - apply IH. intros v' Hin. apply (H v'). right. exact Hin.
Qed.

(** X13: for a switch on a tracked variable, the default edge leaves the
    state as it is; a case edge keeps every value of the variable's range
    that is a case value of that edge, and the reachability with it; an
    edge that no case targets, other than the default, is unreachable. *)
Theorem switch_refinement (cond : Value) (key : addr) (st : block_state)
    (r : range) (default_dest succ : addr) (cases : list (Z * addr)) :
  names_variable cond key -> val_ranges st !! key = Some r -> range_wf r ->
  let sw := SwitchInst cond default_dest cases in
  (succ = default_dest -> refine_sw sw succ st = st)
  /\ (succ <> default_dest ->
      forall x, In (x, succ) cases -> in_range x r ->
      exists r', val_ranges (refine_sw sw succ st) !! key = Some r'
                 /\ in_range x r'
                 /\ reachable (refine_sw sw succ st) = reachable st)
  /\ (succ <> default_dest -> (forall v, ~ In (v, succ) cases) ->
      reachable (refine_sw sw succ st) = false).
Proof.
  intros Hn Hv Wr sw.
  assert (E : refine_sw sw succ st
              = if negb (Pos.eqb default_dest succ) then
                  set_refined st key
                    (Range.intersect r
                       (fold_left (fun case_r '(val, dest) =>
                                     if Pos.eqb dest succ
                                     then Range.join case_r (range_of val val)
                                     else case_r) cases r_bot))
                else st).
  { unfold sw. destruct Hn; cbn [refine_sw vaddr];
      unfold count; rewrite ?Hv; rewrite ?bool_decide_eq_true_2 by eauto;
      rewrite ?Hv; reflexivity. }
  rewrite E. split; [|split].
  - intros ->. rewrite Pos.eqb_refl. reflexivity.
  - intros Hd x Hin Hx.
    replace (Pos.eqb default_dest succ) with false
      by (symmetry; apply Pos.eqb_neq; congruence). cbn [negb].
    assert (Ix : is_int x).
    { destruct Wr as (W1 & W2 & _). unfold is_int, in_range in *. lia. }
    assert (M : in_range x (Range.intersect r
                 (fold_left (fun case_r '(val, dest) =>
                               if Pos.eqb dest succ
                               then Range.join case_r (range_of val val)
                               else case_r) cases r_bot))).
    { apply intersect_member; auto using case_fold_wf, wf_bot, case_fold_hits. }
    destruct (set_refined_member st key _ x M) as [L R]. eauto.
  - intros Hd Hnone.
    replace (Pos.eqb default_dest succ) with false
      by (symmetry; apply Pos.eqb_neq; congruence). cbn [negb].
    rewrite case_fold_none by exact Hnone. rewrite intersect_bot_r. reflexivity.
Qed.

Lemma switch_refinement_witness :
  let st := BlockState {[30%positive := range_of 0 10]} ∅ true in
  let sw := SwitchInst (Argument 30 i32) 9 [(1, 2%positive); (7, 3%positive);
                                            (4, 2%positive)] in
  refine_sw sw 9 st = st
  /\ (exists r', val_ranges (refine_sw sw 2 st) !! 30%positive = Some r'
                 /\ in_range 4 r' /\ reachable (refine_sw sw 2 st) = reachable st)
  /\ reachable (refine_sw sw 5 st) = false.
Proof.
  cbv zeta.
  assert (K : val_ranges (BlockState {[30%positive := range_of 0 10]} ∅ true)
                !! 30%positive = Some (range_of 0 10)) by (vm_compute; reflexivity).
  assert (W : range_wf (range_of 0 10)) by (apply wf_of_le; vm_compute; discriminate).
  split; [|split].
  - apply (switch_refinement (Argument 30 i32) 30 _ _ 9 9 _ (nv_arg 30 i32) K W).
    reflexivity.
  - apply (switch_refinement (Argument 30 i32) 30 _ _ 9 2 _ (nv_arg 30 i32) K W);
      [discriminate|right; right; left; reflexivity|vm_compute; intuition discriminate].
  - apply (switch_refinement (Argument 30 i32) 30 _ _ 9 5 _ (nv_arg 30 i32) K W);
      [discriminate|].
    intros v [H|[H|[H|[]]]]; discriminate.
Defined.

(* ===================================================================== *)
(** ** Further properties: widen_loop *)
(* ===================================================================== *)

Lemma range_le_trans a b c : range_le a b -> range_le b c -> range_le a c.
Proof.
  intros [->|(Nb & L1 & L2)] H; [apply range_le_bot|].
  destruct H as [->|(Nc & L3 & L4)]; [contradiction|].
  right. split; [exact Nc|lia].
Qed.

(** The widened range is a range of the data model that contains the one
    it replaces. *)
Lemma widened_covers (new_r : range) (lower upper : bool) :
  range_wf new_r ->
  let w := range_of (if lower then INT_MIN else get_low new_r)
                    (if upper then INT_MAX else get_high new_r) in
  lower || upper = true -> range_wf w /\ range_le new_r w.
Proof.
  intros W w Hany. pose proof W as (I1 & I2 & _).
  assert (Imin : is_int INT_MIN) by (unfold is_int, INT_MIN, INT_MAX; lia).
  assert (Imax : is_int INT_MAX) by (unfold is_int, INT_MIN, INT_MAX; lia).
  unfold w, get_low, get_high.
  apply wf_cases in W as [->|P].
  - split; [|apply range_le_bot].
    destruct lower, upper; try discriminate; cbn [safelane offlane r_bot];
      rewrite range_of_id by assumption; apply wf_fields; auto;
      unfold INT_MIN, INT_MAX; lia.
  - destruct P as (P1 & P2 & P3).
    assert (L : is_int (if lower then INT_MIN else safelane new_r))
      by (destruct lower; assumption).
    assert (U : is_int (if upper then INT_MAX else offlane new_r))
      by (destruct upper; assumption).
    rewrite range_of_id by assumption.
    assert (Ord : (if lower then INT_MIN else safelane new_r) <= safelane new_r
                  /\ offlane new_r <= (if upper then INT_MAX else offlane new_r)).
    { unfold is_int in *. destruct lower, upper; lia. }
    split.
    + apply wf_fields; auto. lia.
    + apply range_le_fields; [apply proper_fields; auto; lia|cbn; lia|cbn; lia].
Qed.

Lemma widen_loop_grows (pred_state in_state : block_state) (pred curr : addr)
    (back_edges : list (addr * addr)) :
  state_wf pred_state ->
  let w := widen_loop pred_state in_state pred curr back_edges in
  reachable w = reachable pred_state
  /\ (forall v, match val_ranges pred_state !! v with
                | Some r => exists r', val_ranges w !! v = Some r'
                                       /\ range_wf r' /\ range_le r r'
                | None => val_ranges w !! v = None
                end)
  /\ (forall v, match arr_states pred_state !! v with
                | Some a => arr_states w !! v = Some a
                            \/ arr_states w !! v = Some (ArrState ∅ r_top)
                | None => arr_states w !! v = None
                end)
  /\ (is_back_edge back_edges pred curr = false -> w = pred_state).
Proof.
  intros [Wv Wa] w. unfold w, widen_loop.
  destruct (is_back_edge back_edges pred curr) eqn:Hb; cbn [negb].
  2:{ split; [reflexivity|]. split; [|split; [|reflexivity]].
      - intros v. destruct (val_ranges pred_state !! v) eqn:E; [|reflexivity].
        exists r. split; [reflexivity|]. split; eauto using range_le_refl.
      - intros v. destruct (arr_states pred_state !! v); auto. }
  cbn [reachable val_ranges arr_states].
  split; [reflexivity|]. split; [|split; [|discriminate]].
  - apply (map_fold_weak_ind
      (fun (acc : gmap addr range) (_ : gmap addr range) =>
         forall v, match val_ranges pred_state !! v with
                   | Some r => exists r', acc !! v = Some r'
                                          /\ range_wf r' /\ range_le r r'
                   | None => acc !! v = None
                   end)).
    + intros v. destruct (val_ranges pred_state !! v) eqn:E; [|reflexivity].
      exists r. split; [reflexivity|]. split; eauto using range_le_refl.
    + intros k old_r m acc _ IH v.
      destruct (acc !! k) as [new_r|] eqn:Ek; [|apply IH].
      destruct (range_neb old_r new_r && range_neb old_r r_bot); [|apply IH].
      destruct ((get_low new_r <? get_low old_r) || (get_high new_r >? get_high old_r))
        eqn:Hany; [|apply IH].
      destruct (decide (k = v)) as [->|N].
      * specialize (IH v). destruct (val_ranges pred_state !! v) eqn:E.
        -- destruct IH as (r' & Hr' & Wr' & Lr'). rewrite Ek in Hr'.
           injection Hr' as <-.
           destruct (widened_covers new_r _ _ Wr' Hany) as [Ww Lw].
           eexists. split; [apply lookup_insert_eq|].
           split; [exact Ww|]. eapply range_le_trans; eassumption.
        -- congruence.
      * specialize (IH v). rewrite lookup_insert_ne by exact N. exact IH.
  - apply (map_fold_weak_ind
      (fun (acc : gmap addr arr_state) (_ : gmap addr arr_state) =>
         forall v, match arr_states pred_state !! v with
                   | Some a => acc !! v = Some a
                               \/ acc !! v = Some (ArrState ∅ r_top)
                   | None => acc !! v = None
                   end)).
    + intros v. destruct (arr_states pred_state !! v); auto.
    + intros k old_arr m acc _ IH v.
      destruct (acc !! k) as [mine|] eqn:Ek; [|apply IH].
      destruct (range_neb (default_r mine) (default_r old_arr)
                || bool_decide (elem_map mine <> elem_map old_arr)); [|apply IH].
      destruct (decide (k = v)) as [->|N].
      * specialize (IH v). destruct (arr_states pred_state !! v).
        -- right. apply lookup_insert_eq.
        -- congruence.
      * specialize (IH v). rewrite lookup_insert_ne by exact N. exact IH.
Qed.

(** X14: widening never narrows and never forgets: the state it returns
    is as reachable as the one it was given, tracks the same scalars, each
    with a range of the data model that contains the range it had, and
    has for each array either the store it had or the unconstrained
    summary. Across an edge that is not a back edge it returns the state
    unchanged. *)
Theorem widening_only_grows (pred_state in_state : block_state) (pred curr : addr)
    (back_edges : list (addr * addr)) :
  state_wf pred_state ->
  let w := widen_loop pred_state in_state pred curr back_edges in
  reachable w = reachable pred_state
  /\ (forall v, match val_ranges pred_state !! v with
                | Some r => exists r', val_ranges w !! v = Some r'
                                       /\ range_wf r' /\ range_le r r'
                | None => val_ranges w !! v = None
                end)
  /\ (forall v, match arr_states pred_state !! v with
                | Some a => arr_states w !! v = Some a
                            \/ arr_states w !! v = Some (ArrState ∅ r_top)
                | None => arr_states w !! v = None
                end)
  /\ (is_back_edge back_edges pred curr = false -> w = pred_state).
Proof. apply widen_loop_grows. Qed.

Lemma widening_only_grows_witness :
  reachable (widen_loop (BlockState {[11%positive := range_of 0 5]} ∅ true)
                        (BlockState {[11%positive := range_of 0 3]} ∅ true)
                        2 2 [(2%positive, 2%positive)]) = true.
Proof.
  apply (widening_only_grows (BlockState {[11%positive := range_of 0 5]} ∅ true)
           (BlockState {[11%positive := range_of 0 3]} ∅ true) 2 2
           [(2%positive, 2%positive)]).
  apply singleton_state_wf, wf_of_le. vm_compute. discriminate.
Defined.

(* ===================================================================== *)
(** ** Further properties: block_state::operator!= *)
(* ===================================================================== *)

Lemma range_neb_false r1 r2 : range_neb r1 r2 = false <-> r1 = r2.
Proof. unfold range_neb. rewrite negb_false_iff. apply range_eqb_eq. Qed.

Lemma range_neb_true r1 r2 : range_neb r1 r2 = true <-> r1 <> r2.
Proof. unfold range_neb. rewrite negb_true_iff. apply range_eqb_neq. Qed.

(** A loop that returns at the first entry a test holds for finds nothing
    exactly when the test fails for every entry. *)
Lemma map_search_false {K V} `{Countable K} (g : K -> V -> bool) (m : gmap K V) :
  map_fold (fun k v (found : bool) => found || g k v) false m = false
  <-> forall k v, m !! k = Some v -> g k v = false.
Proof.
  apply (map_fold_weak_ind
    (fun (acc : bool) (m : gmap K V) =>
       acc = false <-> forall k v, m !! k = Some v -> g k v = false)).
  - split; [|reflexivity]. intros _ k v Hk. rewrite lookup_empty in Hk. discriminate.
  - intros k v m' acc Hk IH. rewrite orb_false_iff, IH. split.
    + intros [Hall Hg] j w Hj. destruct (decide (k = j)) as [->|N].
      * rewrite lookup_insert_eq in Hj. injection Hj as <-. exact Hg.
      * rewrite lookup_insert_ne in Hj by exact N. eauto.
    + intros Hall. split.
      * intros j w Hj. apply Hall. rewrite lookup_insert_ne; [exact Hj|].
        intros ->. congruence.
      * apply Hall. apply lookup_insert_eq.
Qed.

(** X15: what [operator!=] decides. Two states are reported equal exactly
    when both are unreachable, or both are reachable with the same scalar
    map, the same number of arrays, and for every array of the left state
    an array of the right state under the same key with the same default
    and the same number of slots. *)
Theorem state_comparison_decides (s1 s2 : block_state) :
  block_state_ne s1 s2 = false
  <-> (reachable s1 = false /\ reachable s2 = false)
      \/ (reachable s1 = true /\ reachable s2 = true
          /\ val_ranges s1 = val_ranges s2
          /\ size (arr_states s1) = size (arr_states s2)
          /\ forall k arr, arr_states s1 !! k = Some arr ->
               exists arr', arr_states s2 !! k = Some arr'
                            /\ default_r arr' = default_r arr
                            /\ size (elem_map arr') = size (elem_map arr)).
Proof.
  unfold block_state_ne.
  destruct (reachable s1) eqn:R1, (reachable s2) eqn:R2; cbn [Bool.eqb negb andb].
  2:{ split; [discriminate|]. intros [[? ?]|(? & ? & _)]; discriminate. }
  2:{ split; [discriminate|]. intros [[? ?]|(? & ? & _)]; discriminate. }
  2:{ split; auto. }
  destruct (Nat.eqb_spec (size (val_ranges s1)) (size (val_ranges s2))) as [Sv|Sv];
    cbn [negb].
  2:{ split; [discriminate|]. intros [[? ?]|(_ & _ & E & _)]; [discriminate|].
      rewrite E in Sv. contradiction. }
  destruct (Nat.eqb_spec (size (arr_states s1)) (size (arr_states s2))) as [Sa|Sa];
    cbn [negb].
  2:{ split; [discriminate|]. intros [[? ?]|(_ & _ & _ & E & _)]; [discriminate|].
      contradiction. }
  set (gv := fun (val : addr) (r : range) =>
               match val_ranges s2 !! val with
               | None => true
               | Some r' => range_neb r' r
               end).
  set (ga := fun (alloc : addr) (arr : arr_state) =>
               match arr_states s2 !! alloc with
               | None => true
               | Some arr' =>
                   range_neb (default_r arr') (default_r arr)
                   || negb (size (elem_map arr') =? size (elem_map arr))%nat
               end).
  change (map_fold _ false (val_ranges s1))
    with (map_fold (fun k v (found : bool) => found || gv k v) false (val_ranges s1)).
  change (map_fold _ false (arr_states s1))
    with (map_fold (fun k v (found : bool) => found || ga k v) false (arr_states s1)).
  pose proof (map_search_false gv (val_ranges s1)) as Hv.
  pose proof (map_search_false ga (arr_states s1)) as Ha.
  destruct (map_fold (fun k v (found : bool) => found || gv k v) false (val_ranges s1)).
  { split; [discriminate|]. intros [[? ?]|(_ & _ & E & _)]; [discriminate|].
    assert (F : true = false); [|discriminate].
    apply Hv. intros k v Hk. unfold gv. rewrite <- E, Hk.
    apply range_neb_false. reflexivity. }
  assert (Ev : val_ranges s1 = val_ranges s2).
  { apply map_subseteq_size_eq; [|lia]. apply map_subseteq_spec. intros k v Hk.
    pose proof (proj1 Hv eq_refl k v Hk) as G. unfold gv in G.
    destruct (val_ranges s2 !! k); [|discriminate].
    apply range_neb_false in G. congruence. }
  destruct (map_fold (fun k v (found : bool) => found || ga k v) false (arr_states s1)).
  { split; [discriminate|]. intros [[? ?]|(_ & _ & _ & _ & E)]; [discriminate|].
    assert (F : true = false); [|discriminate].
    apply Ha. intros k v Hk. unfold ga.
    destruct (E k v Hk) as (arr' & -> & D & S).
    rewrite D, S, Nat.eqb_refl. rewrite orb_false_r. apply range_neb_false. reflexivity. }
  split; [|reflexivity]. intros _. right. repeat split; auto.
  intros k arr Hk. pose proof (proj1 Ha eq_refl k arr Hk) as G. unfold ga in G.
  destruct (arr_states s2 !! k) as [arr'|]; [|discriminate].
  apply orb_false_iff in G as [G1 G2]. apply range_neb_false in G1.
  apply negb_false_iff, Nat.eqb_eq in G2. eauto.
Qed.

(* ===================================================================== *)
(** ** Further properties: block_state::join_state *)
(* ===================================================================== *)

Lemma join_state_scalars (mine : gmap addr range) (other : gmap addr range) :
  let res :=
    map_fold (fun val other_r '(vals, changed) =>
                if range_eqb other_r r_bot then (vals, changed)
                else
                  let it := vals !! val in
                  let old_r := default r_bot it in
                  let new_r := Range.join old_r other_r in
                  if bool_decide (it = None) || range_neb old_r new_r
                  then (<[val := new_r]> vals, true)
                  else (vals, changed))
             (mine, false) other in
  (forall v, fst res !! v = joined_range (mine !! v) (other !! v))
  /\ (snd res = true <-> fst res <> mine).
Proof.
  cbv zeta.
  apply (map_fold_weak_ind
    (fun (acc : gmap addr range * bool) (m : gmap addr range) =>
       (forall v, fst acc !! v = joined_range (mine !! v) (m !! v))
       /\ (snd acc = true <-> fst acc <> mine))).
  - split.
    + intros v. rewrite lookup_empty. reflexivity.
    + cbn. split; [discriminate|]. intros H. contradiction.
  - intros k x m [vals ch] Hk [IH1 IH2]. cbn [fst snd] in *.
    assert (Vk : vals !! k = mine !! k).
    { rewrite IH1, Hk. reflexivity. }
    destruct (range_eqb x r_bot) eqn:Ex; cbn [fst snd].
    { split; [|exact IH2]. intros v. destruct (decide (k = v)) as [->|N].
      - rewrite lookup_insert_eq. cbn. rewrite Ex. exact Vk.
      - rewrite lookup_insert_ne by exact N. apply IH1. }
    destruct (bool_decide (vals !! k = None)
              || range_neb (default r_bot (vals !! k))
                           (Range.join (default r_bot (vals !! k)) x)) eqn:Eu;
      cbn [fst snd].
    + split.
      * intros v. destruct (decide (k = v)) as [->|N].
        -- rewrite !lookup_insert_eq. cbn. rewrite Ex, Vk. reflexivity.
        -- rewrite !lookup_insert_ne by exact N. apply IH1.
      * split; [|reflexivity]. intros _ E.
        apply (f_equal (fun mp => mp !! k)) in E. rewrite lookup_insert_eq in E.
        apply orb_true_iff in Eu as [Eu|Eu].
        -- apply bool_decide_eq_true_1 in Eu. rewrite Vk in Eu. congruence.
        -- apply range_neb_true in Eu. rewrite <- Vk in E.
           destruct (vals !! k) as [r|]; [|discriminate].
           cbn in *. injection E as E. congruence.
    + split; [|exact IH2]. intros v. destruct (decide (k = v)) as [->|N].
      * rewrite lookup_insert_eq. cbn. rewrite Ex.
        apply orb_false_iff in Eu as [Eu1 Eu2].
        apply bool_decide_eq_false_1 in Eu1. apply range_neb_false in Eu2.
        rewrite <- Vk. destruct (vals !! v) eqn:Ev; [|contradiction].
        cbn in *. congruence.
      * rewrite lookup_insert_ne by exact N. apply IH1.
Qed.

Lemma join_state_arrays (mine : gmap addr arr_state) (ch0 : bool)
    (other : gmap addr arr_state) :
  let res :=
    map_fold (fun alloc other_arr '(arrs, changed) =>
                let it := arrs !! alloc in
                let new_arr :=
                  match it with
                  | Some mine => join_arr mine other_arr
                  | None => other_arr
                  end in
                let needs_update :=
                  match it with
                  | None => true
                  | Some mine =>
                      range_neb (default_r mine) (default_r new_arr)
                      || bool_decide (elem_map mine <> elem_map new_arr)
                  end in
                if needs_update then (<[alloc := new_arr]> arrs, true)
                else (arrs, changed))
             (mine, ch0) other in
  (forall v, fst res !! v = joined_array (mine !! v) (other !! v))
  /\ (snd res = true <-> ch0 = true \/ fst res <> mine).
Proof.
  cbv zeta.
  apply (map_fold_weak_ind
    (fun (acc : gmap addr arr_state * bool) (m : gmap addr arr_state) =>
       (forall v, fst acc !! v = joined_array (mine !! v) (m !! v))
       /\ (snd acc = true <-> ch0 = true \/ fst acc <> mine))).
  - split.
    + intros v. rewrite lookup_empty. reflexivity.
    + cbn. split; [auto|]. intros [H|H]; [exact H|contradiction].
  - intros k x m [arrs ch] Hk [IH1 IH2]. cbn [fst snd] in *.
    assert (Vk : arrs !! k = mine !! k).
    { rewrite IH1, Hk. reflexivity. }
    destruct (arrs !! k) as [arr|] eqn:Ek.
    + destruct (range_neb (default_r arr) (default_r (join_arr arr x))
                || bool_decide (elem_map arr <> elem_map (join_arr arr x))) eqn:Eu;
        cbn [fst snd].
      * split.
        -- intros v. destruct (decide (k = v)) as [->|N].
           ++ rewrite !lookup_insert_eq. cbn. rewrite <- Vk. reflexivity.
           ++ rewrite !lookup_insert_ne by exact N. apply IH1.
        -- split; [|reflexivity]. intros _. right. intros E.
           apply (f_equal (fun mp => mp !! k)) in E. rewrite lookup_insert_eq in E.
           rewrite <- Vk in E. injection E as E.
           apply orb_true_iff in Eu as [Eu|Eu].
           ++ apply range_neb_true in Eu. rewrite E in Eu. contradiction.
           ++ apply bool_decide_eq_true_1 in Eu. rewrite E in Eu. contradiction.
      * split; [|exact IH2]. intros v. destruct (decide (k = v)) as [->|N].
        -- rewrite lookup_insert_eq. cbn. rewrite <- Vk, Ek.
           apply orb_false_iff in Eu as [Eu1 Eu2].
           apply range_neb_false in Eu1. apply bool_decide_eq_false_1 in Eu2.
           f_equal. destruct arr as [em d], (join_arr (ArrState em d) x) as [em' d'].
           cbn in *. f_equal; [|exact Eu1].
           destruct (decide (em = em')); [assumption|contradiction].
        -- rewrite lookup_insert_ne by exact N. apply IH1.
    + cbn [fst snd]. split.
      * intros v. destruct (decide (k = v)) as [->|N].
        -- rewrite !lookup_insert_eq. cbn. rewrite <- Vk. reflexivity.
        -- rewrite !lookup_insert_ne by exact N. apply IH1.
      * split; [|reflexivity]. intros _. right. intros E.
        apply (f_equal (fun mp => mp !! k)) in E. rewrite lookup_insert_eq in E.
        congruence.
Qed.

(** X16: joining two reachable states is a join key by key: a scalar the
    other state has with a non-Bottom range is joined with the one this
    state has (Bottom when it has none), an array the other state has is
    joined by [join_arr] (copied when this state has none), and every
    other entry stays; the result is reachable. *)
Theorem join_state_pointwise (self other : block_state) :
  reachable self = true -> reachable other = true ->
  let joined := fst (join_state self other) in
  reachable joined = true
  /\ (forall v, val_ranges joined !! v
                = joined_range (val_ranges self !! v) (val_ranges other !! v))
  /\ (forall v, arr_states joined !! v
                = joined_array (arr_states self !! v) (arr_states other !! v)).
Proof.
  intros Rs Ro. unfold join_state. rewrite Rs, Ro. cbn [negb].
  pose proof (join_state_scalars (val_ranges self) (val_ranges other)) as [V _].
  cbv zeta in V.
  destruct (map_fold _ (val_ranges self, false) (val_ranges other)) as [vals ch1].
  pose proof (join_state_arrays (arr_states self) ch1 (arr_states other)) as [A _].
  cbv zeta in A.
  destruct (map_fold _ (arr_states self, ch1) (arr_states other)) as [arrs ch2].
  cbn in *. auto.
Qed.

Lemma join_state_pointwise_witness :
  val_ranges (fst (join_state (Stale.state 0 1)
                              (BlockState {[11%positive := range_of 2 3]} ∅ true)))
    !! 11%positive = Some (range_of 2 3).
Proof.
  destruct (join_state_pointwise (Stale.state 0 1)
              (BlockState {[11%positive := range_of 2 3]} ∅ true) eq_refl eq_refl)
    as (_ & V & _).
  rewrite V. vm_compute. reflexivity.
Defined.

(** X17: the flag [join_state] returns tells whether it changed the
    state: it is [true] exactly when the state after the call differs from
    the state before. *)
Theorem join_state_reports_change (self other : block_state) :
  snd (join_state self other) = true <-> fst (join_state self other) <> self.
Proof.
  unfold join_state.
  destruct (reachable other) eqn:Ro; cbn [negb].
  2:{ cbn. split; [discriminate|]. intros H. contradiction. }
  destruct (reachable self) eqn:Rs; cbn [negb].
  2:{ cbn. split; [|reflexivity]. intros _ E.
      apply (f_equal reachable) in E. cbn in E. congruence. }
  pose proof (join_state_scalars (val_ranges self) (val_ranges other)) as [_ V].
  cbv zeta in V.
  destruct (map_fold _ (val_ranges self, false) (val_ranges other)) as [vals ch1].
  pose proof (join_state_arrays (arr_states self) ch1 (arr_states other)) as [_ A].
  cbv zeta in A.
  destruct (map_fold _ (arr_states self, ch1) (arr_states other)) as [arrs ch2].
  cbn [fst snd] in *. rewrite A, V. split.
  - intros [H|H] E; apply H; rewrite <- E; reflexivity.
  - intros H. destruct (decide (vals = val_ranges self)) as [Ev|Nv]; [|auto].
    right. intros Ea. apply H. destruct self. cbn in *. congruence.
Qed.

(* ===================================================================== *)
(** ** Further properties: the worklist loop of run_pass *)
(* ===================================================================== *)

Lemma set_refined_wf st key r : state_wf st -> range_wf r -> state_wf (set_refined st key r).
Proof.
  intros [Wv Wa] Wr. split; [|exact Wa]. intros k r'. unfold set_refined. cbn.
  destruct (decide (key = k)) as [->|N].
  - rewrite lookup_insert_eq. congruence.
  - rewrite lookup_insert_ne by exact N. apply Wv.
Qed.

Lemma refine_br_wf br succ st : state_wf st -> state_wf (refine_br br succ st).
Proof.
  intros W. pose proof W as [Wv _]. unfold refine_br.
  destruct br; auto. destruct cond; auto.
  match goal with
  | |- context [match_cmp ?p ?l ?r st] =>
      destruct (match_cmp p l r st) as [[[var c] q]|]
  end; auto.
  destruct (val_ranges st !! var) eqn:E; auto.
  apply set_refined_wf; [exact W|]. apply intersect_wf; eauto using filter_of_wf.
Qed.

Lemma refine_sw_wf sw succ st : state_wf st -> state_wf (refine_sw sw succ st).
Proof.
  intros W. pose proof W as [Wv _]. unfold refine_sw.
  destruct sw; auto.
  destruct (match cond with
            | LoadInst _ _ p => Some (vaddr (get_base_ptr p))
            | Argument a _ => Some a
            | _ => if count (val_ranges st) (vaddr cond) then Some (vaddr cond) else None
            end) as [var|]; auto.
  destruct (val_ranges st !! var) eqn:E; auto.
  destruct (negb (Pos.eqb default_dest succ)); auto.
  apply set_refined_wf; [exact W|].
  apply intersect_wf; eauto using case_fold_wf, wf_bot.
Qed.

Lemma widen_loop_wf st ins p c be : state_wf st -> state_wf (widen_loop st ins p c be).
Proof.
  intros W. destruct (widen_loop_grows st ins p c be W) as (_ & V & A & _).
  pose proof W as [Wv Wa]. split.
  - intros v r H. specialize (V v). destruct (val_ranges st !! v).
    + destruct V as (r' & E & Wr & _). congruence.
    + congruence.
  - intros v a H. specialize (A v). destruct (arr_states st !! v) eqn:E.
    + destruct A as [A|A]; rewrite A in H; injection H as <-; eauto using summary_wf.
    + congruence.
Qed.

Lemma join_arr_wf a b : arr_wf a -> arr_wf b -> arr_wf (join_arr a b).
Proof.
  intros [Da Sa] [Db Sb]. split; [apply join_wf; assumption|].
  intros i r. rewrite join_arr_lookup.
  destruct (elem_map a !! i) eqn:Ea, (elem_map b !! i) eqn:Eb; intros H;
    try discriminate; injection H as <-; apply join_wf; eauto.
Qed.

Lemma join_state_wf self other :
  state_wf self -> state_wf other -> state_wf (fst (join_state self other)).
Proof.
  intros Ws Wo. pose proof Ws as [Vs As]. pose proof Wo as [Vo Ao].
  unfold join_state.
  destruct (reachable other) eqn:Ro; cbn [negb]; [|exact Ws].
  destruct (reachable self) eqn:Rs; cbn [negb]; [|split; assumption].
  pose proof (join_state_scalars (val_ranges self) (val_ranges other)) as [V _].
  cbv zeta in V.
  destruct (map_fold _ (val_ranges self, false) (val_ranges other)) as [vals ch1].
  pose proof (join_state_arrays (arr_states self) ch1 (arr_states other)) as [A _].
  cbv zeta in A.
  destruct (map_fold _ (arr_states self, ch1) (arr_states other)) as [arrs ch2].
  cbn [fst snd] in *. split; cbn [val_ranges arr_states].
  - intros v r H. rewrite V in H. unfold joined_range in H.
    destruct (val_ranges other !! v) eqn:Eo; [|eauto].
    destruct (range_eqb r0 r_bot); [eauto|]. injection H as <-.
    apply join_wf; [|eauto].
    destruct (val_ranges self !! v) eqn:Es; cbn; eauto using wf_bot.
  - intros v a H. rewrite A in H. unfold joined_array in H.
    destruct (arr_states other !! v) eqn:Eo; [|eauto]. injection H as <-.
    destruct (arr_states self !! v) eqn:Es; eauto using join_arr_wf.
Qed.

Lemma entry_state_fold args : forall st,
  state_wf st -> state_wf (fold_left (fun st arg => set_val st (vaddr arg) r_top) args st).
Proof.
  induction args as [|a args IH]; intros st W; cbn; auto using set_val_wf, wf_top.
Qed.

Lemma merge_pred_wf F s BB new_in pred_bb :
  solver_wf s -> state_wf new_in -> state_wf (merge_pred F s BB new_in pred_bb).
Proof.
  intros [Wi Wo] Wn. unfold merge_pred.
  destruct (reachable (state_at (out_state s) (bb_addr pred_bb))); cbn [negb]; [|exact Wn].
  set (refined := match bb_term pred_bb with
                  | Br _ | CondBr _ _ _ => refine_br _ _ _
                  | SwitchInst _ _ _ => refine_sw _ _ _
                  | _ => _
                  end).
  assert (Wr : state_wf refined).
  { unfold refined. destruct (bb_term pred_bb);
      auto using refine_br_wf, refine_sw_wf, state_at_wf. }
  destruct (reachable (widen_loop refined _ _ _ _)); [|exact Wn].
  apply join_state_wf; [exact Wn|]. apply widen_loop_wf, Wr.
Qed.

Lemma states_wf_insert states b st :
  states_wf states -> state_wf st -> states_wf (<[b := st]> states).
Proof.
  intros W Ws k st' H. destruct (decide (b = k)) as [->|N].
  - rewrite lookup_insert_eq in H. congruence.
  - rewrite lookup_insert_ne in H by exact N. eauto.
Qed.

Lemma solver_step_wf F BB rest s : solver_wf s -> solver_wf (solver_step F BB rest s).
Proof.
  intros W. pose proof W as [Wi Wo]. unfold solver_step.
  destruct (get_block F BB) as [blk|]; [|exact W].
  set (new_in := if is_entry F BB then entry_state F else _).
  assert (Wn : state_wf new_in).
  { unfold new_in. destruct (is_entry F BB).
    - apply entry_state_fold, empty_state_wf.
    - generalize (predecessors F BB). intros preds.
      assert (G : forall st, state_wf st -> state_wf (fold_left (merge_pred F s BB) preds st)).
      { induction preds as [|p preds IH]; intros st Ws; cbn; auto using merge_pred_wf. }
      apply G, state_new_wf. }
  set (current := if negb (reachable new_in) then new_in else _).
  assert (Wc : state_wf current).
  { unfold current. destruct (negb (reachable new_in)); auto using transfer_block_wf. }
  destruct (if block_state_ne _ current then _ else _) as [wk' in_wk'].
  split; cbn; apply states_wf_insert; assumption.
Qed.

Lemma solve_wf F : forall fuel s r,
  solver_wf s -> solve fuel F s = Some r -> solver_wf r.
Proof.
  induction fuel as [|fuel IH]; intros s r W H; cbn in H;
    destruct (wk s) as [|BB rest]; try discriminate.
  - injection H as <-. exact W.
  - injection H as <-. exact W.
  - eapply IH; [|exact H]. apply solver_step_wf, W.
Qed.

(** X18: every range the fixpoint computes is a range of the data model:
    when the worklist loop ends, each in-state and each out-state holds,
    for every scalar and for every slot and default of every array, [int]
    bounds that are Bottom or have [lo <= hi]. *)
Theorem solved_states_are_model (fuel : nat) (F : Function) (s : solver) :
  solve fuel F (solver_init F) = Some s -> solver_wf s.
Proof.
  apply solve_wf. split; cbn; apply empty_states_wf.
Qed.

Lemma solved_states_are_model_witness : solver_wf Twice.solved.
Proof.
  apply (solved_states_are_model 1 Twice.F Twice.solved). vm_compute. reflexivity.
Defined.

Lemma push_successors_ok succs : forall wk0 in_wk0,
  NoDup wk0 -> (forall b, b ∈ in_wk0 <-> b ∈ wk0) ->
  NoDup (fst (push_successors succs wk0 in_wk0))
  /\ (forall b, b ∈ snd (push_successors succs wk0 in_wk0)
                <-> b ∈ fst (push_successors succs wk0 in_wk0)).
Proof.
  unfold push_successors.
  induction succs as [|x succs IH]; intros wk0 in_wk0 Hn Hs; cbn [fold_left];
    [split; assumption|].
  destruct (decide (x ∈ in_wk0)) as [Hin|Hout].
  - rewrite bool_decide_eq_true_2 by exact Hin. apply IH; assumption.
  - rewrite bool_decide_eq_false_2 by exact Hout. apply IH.
    + apply NoDup_app. split; [exact Hn|]. split.
      * intros y Hy Hy'. apply list_elem_of_singleton in Hy'. subst y.
        apply Hout, Hs, Hy.
      * apply NoDup_singleton.
    + intros b. rewrite elem_of_union, elem_of_singleton, elem_of_app,
        list_elem_of_singleton, Hs. tauto.
Qed.

Lemma solver_step_queue_ok F BB rest s :
  wk s = BB :: rest -> queue_ok s -> queue_ok (solver_step F BB rest s).
Proof.
  intros Hw [Hn Hs]. rewrite Hw in Hn, Hs.
  apply NoDup_cons in Hn as [Hnot Hn].
  assert (Hs' : forall b, b ∈ in_wk s ∖ {[BB]} <-> b ∈ rest).
  { intros b. rewrite elem_of_difference, elem_of_singleton, Hs, elem_of_cons.
    split; [intros [[?|?] ?]; [contradiction|assumption]|].
    intros Hb. split; [right; exact Hb|]. intros ->. contradiction. }
  unfold solver_step. destruct (get_block F BB) as [blk|]; [|split; assumption].
  destruct (block_state_ne _ _).
  - pose proof (push_successors_ok (successors blk) rest (in_wk s ∖ {[BB]}) Hn Hs')
      as [P1 P2].
    destruct (push_successors _ _ _) as [wk' in_wk']. split; assumption.
  - split; assumption.
Qed.

(** X19: the queue never holds a block twice, and the set of queued
    blocks is the set of blocks in the queue: for a function whose blocks
    have distinct addresses this holds before the first iteration of the
    worklist loop and after every one. *)
Theorem queue_holds_each_block_once (F : Function) (n : nat) :
  NoDup (map bb_addr (fn_blocks F)) -> queue_ok (iterate n F (solver_init F)).
Proof.
  intros Hd.
  assert (I : queue_ok (solver_init F)).
  { split; cbn; [exact Hd|]. intros b. apply elem_of_list_to_set. }
  generalize (solver_init F) I. induction n as [|n IH]; intros s Hs; cbn; [exact Hs|].
  destruct (wk s) as [|BB rest] eqn:Hw; [exact Hs|].
  apply IH, solver_step_queue_ok; assumption.
Qed.

Lemma queue_holds_each_block_once_witness :
  queue_ok (iterate 6 Spin.F (solver_init Spin.F)).
Proof.
  apply (queue_holds_each_block_once Spin.F 6).
  refine (bool_decide_unpack _ _). vm_compute. exact I.
Defined.

(** X20: the in-state of the entry block is reachable, tracks no array,
    and maps every argument of the function to Top. *)
Theorem entry_state_arguments_top (F : Function) (arg : Value) :
  In arg (fn_args F) ->
  val_ranges (entry_state F) !! vaddr arg = Some r_top
  /\ reachable (entry_state F) = true
  /\ arr_states (entry_state F) = ∅.
Proof.
  unfold entry_state.
  assert (G : forall args st,
             (In arg args \/ val_ranges st !! vaddr arg = Some r_top) ->
             let st' := fold_left (fun st a => set_val st (vaddr a) r_top) args st in
             val_ranges st' !! vaddr arg = Some r_top
             /\ reachable st' = reachable st /\ arr_states st' = arr_states st).
  { induction args as [|a args IH]; intros st H; cbn.
    - destruct H as [[]|H]. auto.
    - destruct (IH (set_val st (vaddr a) r_top)) as (I1 & I2 & I3); [|auto].
      destruct H as [[->|H]|H]; [right; cbn; apply lookup_insert_eq|left; exact H|].
      right. cbn. destruct (decide (vaddr a = vaddr arg)) as [->|N].
      + apply lookup_insert_eq.
      + rewrite lookup_insert_ne by exact N. exact H. }
  intros Hin. apply (G (fn_args F) (BlockState ∅ ∅ true)). left. exact Hin.
Qed.

Lemma entry_state_arguments_top_witness :
  val_ranges (entry_state Twice.F) !! 31%positive = Some r_top.
Proof.
  apply (entry_state_arguments_top Twice.F Twice.m). right. left. reflexivity.
Defined.

(* ===================================================================== *)
(** ** Further properties: the instrumentation loop and add_check *)
(* ===================================================================== *)

Lemma index_lines_quiet idx st r : existsb is_instrumenting (index_lines idx st r) = false.
Proof.
  unfold index_lines. rewrite !existsb_app. cbn.
  destruct (val_ranges st !! vaddr idx); cbn;
    destruct idx; cbn; try reflexivity;
    repeat match goal with
           | |- context [match ?x with _ => _ end] => destruct x
           end; reflexivity.
Qed.

Lemma verdict_line_quiet r b size : is_instrumenting (verdict_line r b size) = false.
Proof.
  unfold verdict_line. destruct (range_eqb r r_bot); [reflexivity|].
  destruct (negb b); reflexivity.
Qed.

(** One turn of the loop either leaves blocks, fresh address and flag as
    they are and prints no "Instrumenting" line, or sets the flag and
    prints one. *)
Lemma instrument_gep_cases ins outs rw gep rw' :
  instrument_gep ins outs rw gep = Some rw' ->
  exists lines, rw_log rw' = rw_log rw ++ lines
    /\ ((rw_blocks rw' = rw_blocks rw /\ rw_fresh rw' = rw_fresh rw
         /\ rw_modified rw' = rw_modified rw
         /\ existsb is_instrumenting lines = false)
        \/ (rw_modified rw' = true /\ existsb is_instrumenting lines = true)).
Proof.
  assert (Q : forall r : rewriter, exists lines, rw_log r = rw_log r ++ lines
    /\ ((rw_blocks r = rw_blocks r /\ rw_fresh r = rw_fresh r
         /\ rw_modified r = rw_modified r
         /\ existsb is_instrumenting lines = false)
        \/ (rw_modified r = true /\ existsb is_instrumenting lines = true))).
  { intros r. exists []. rewrite app_nil_r. split; [reflexivity|]. left. auto. }
  unfold instrument_gep. destruct gep; try (intros H; injection H as <-; apply Q).
  destruct (getParent (rw_blocks rw) a) as [BB|]; [|intros H; injection H as <-; apply Q].
  destruct (negb (reachable (state_at ins (bb_addr BB)))).
  { intros H. injection H as <-. exists [SkippedUnreachable a]. split; [reflexivity|].
    left. auto. }
  destruct gep; try (intros H; injection H as <-; apply Q).
  destruct allocated; try (intros H; injection H as <-; apply Q).
  destruct (index_range_at _ BB ins outs) as [st_at idx_r].
  set (lines1 := match second_index indices with
                 | Some idx_val => index_lines idx_val st_at idx_r
                 | None => []
                 end).
  assert (Q1 : existsb is_instrumenting lines1 = false).
  { unfold lines1. destruct (second_index indices); [apply index_lines_quiet|reflexivity]. }
  assert (E1 : forall r, rw_log match second_index indices with
                                | Some idx_val => say r (index_lines idx_val st_at idx_r)
                                | None => r
                                end = rw_log r ++ lines1).
  { intros r. unfold lines1. destruct (second_index indices); cbn;
      [reflexivity|rewrite app_nil_r; reflexivity]. }
  assert (K1 : forall r,
             let r1 := match second_index indices with
                       | Some idx_val => say r (index_lines idx_val st_at idx_r)
                       | None => r
                       end in
             rw_blocks r1 = rw_blocks r /\ rw_fresh r1 = rw_fresh r
             /\ rw_modified r1 = rw_modified r).
  { intros r. destruct (second_index indices); cbn; auto. }
  destruct (K1 rw) as (B1 & F1 & M1). specialize (E1 rw).
  set (rw1 := match second_index indices with
              | Some idx_val => say rw (index_lines idx_val st_at idx_r)
              | None => rw
              end) in *.
  destruct (negb (needs_check idx_r num_elements)) eqn:En.
  - intros H. injection H as <-.
    exists (lines1 ++ [verdict_line idx_r (needs_check idx_r num_elements) num_elements;
                       Skipped a]).
    cbn [say rw_log rw_blocks rw_fresh rw_modified]. rewrite E1.
    split; [rewrite <- !app_assoc; reflexivity|]. left.
    repeat split; auto.
    rewrite existsb_app, Q1. cbn. rewrite verdict_line_quiet. reflexivity.
  - destruct (add_check _ num_elements _ _) as [[blocks' fresh']|]; [|discriminate].
    intros H. injection H as <-.
    exists (lines1 ++ [verdict_line idx_r (needs_check idx_r num_elements) num_elements;
                       Instrumenting a]).
    cbn [say rw_log rw_blocks rw_fresh rw_modified]. rewrite E1.
    split; [rewrite <- !app_assoc; reflexivity|]. right.
    split; [reflexivity|].
    rewrite existsb_app. cbn. rewrite verdict_line_quiet. cbn.
    apply orb_true_r.
Qed.

Lemma instrument_all_cases ins outs geps : forall rw rw',
  instrument_all ins outs rw geps = Some rw' ->
  exists lines, rw_log rw' = rw_log rw ++ lines
    /\ ((rw_blocks rw' = rw_blocks rw /\ rw_fresh rw' = rw_fresh rw
         /\ rw_modified rw' = rw_modified rw
         /\ existsb is_instrumenting lines = false)
        \/ (rw_modified rw' = true /\ existsb is_instrumenting lines = true)).
Proof.
  induction geps as [|g geps IH]; intros rw rw' H; cbn in H.
  - injection H as <-. exists []. rewrite app_nil_r. split; [reflexivity|]. left. auto.
  - destruct (instrument_gep ins outs rw g) as [rw1|] eqn:E1; [|discriminate].
    destruct (instrument_gep_cases _ _ _ _ _ E1) as (l1 & L1 & C1).
    destruct (IH _ _ H) as (l2 & L2 & C2).
    exists (l1 ++ l2). rewrite L2, L1, <- app_assoc. split; [reflexivity|].
    rewrite existsb_app.
    destruct C2 as [(B2 & F2 & M2 & Q2)|[M2 Q2]].
    + destruct C1 as [(B1 & F1 & M1 & Q1)|[M1 Q1]].
      * left. rewrite Q1, Q2. repeat split; congruence.
      * right. rewrite Q1. split; [congruence|reflexivity].
    + right. rewrite Q2, orb_true_r. split; [assumption|reflexivity].
Qed.

(** X21: a run reports all analyses preserved exactly when it printed no
    "Instrumenting" line, and then the function is left as it was; a run
    that reports none preserved printed such a line. *)
Theorem preserved_iff_no_guard (fuel : nat) (F : Function) (res : pass_result) :
  run_pass fuel F = Finished res ->
  (preserved res = PA_all
   <-> existsb is_instrumenting (printed res) = false)
  /\ (preserved res = PA_all -> function_after res = F).
Proof.
  unfold run_pass. destruct (negb (String.eqb (fn_name F) "test")).
  { intros H. injection H as <-. cbn. split; [split; reflexivity|reflexivity]. }
  destruct (solve fuel F (solver_init F)) as [s|]; [|discriminate].
  destruct (instrument_all _ _ _ _) as [rw|] eqn:E; [|discriminate].
  intros H. injection H as <-. cbn [preserved printed function_after].
  destruct (instrument_all_cases _ _ _ _ _ E) as (lines & L & C).
  cbn in L. subst lines. cbn in C.
  destruct C as [(B & Fr & M & Q)|[M Q]].
  - rewrite M, Q. split; [split; reflexivity|]. intros _.
    rewrite B, Fr. destruct F; reflexivity.
  - rewrite M, Q. split; [split; discriminate|discriminate].
Qed.

Lemma preserved_iff_no_guard_witness :
  existsb is_instrumenting Twice.lines = true.
Proof.
  destruct (preserved_iff_no_guard 1 Twice.F
              (PassResult PA_none Twice.rewritten Twice.lines)) as [[_ H] _].
  - vm_compute. reflexivity.
  - cbn [printed preserved] in H.
    destruct (existsb is_instrumenting Twice.lines); [reflexivity|].
    specialize (H eq_refl). discriminate.
Defined.




Lemma add_check_succeeds g base i0 idx more size blocks fresh curr :
  getParent blocks g = Some curr ->
  exists blocks',
    add_check (GetElementPtrInst g base (i0 :: idx :: more)) size blocks fresh
    = Some (blocks', (fresh + 8)%positive).
Proof.
  intros Hp. unfold add_check. rewrite Hp.
  destruct (split_at g (bb_insts curr)) as [before from]. eexists. reflexivity.
Qed.

(** X23: the verdict for one access to a fixed-size array. When the block
    that holds the access now has an unreachable in-state, nothing but
    the "unreachable" line happens. Otherwise, with a second index, the
    access is skipped and the blocks stay when [needs_check] says no for
    the range of the index at the access, and is guarded by [add_check],
    with the flag set, when it says yes. *)
Theorem site_decision (ins outs : gmap addr block_state) (rw : rewriter)
    (g b : addr) (n : Z) (elt : Ty) (i0 idx : Value) (more : list Value)
    (BB : BasicBlock) :
  let gep := GetElementPtrInst g (AllocaInst b (ArrayTy n elt)) (i0 :: idx :: more) in
  let idx_r := snd (index_range_at gep BB ins outs) in
  getParent (rw_blocks rw) g = Some BB ->
  (reachable (state_at ins (bb_addr BB)) = false ->
   instrument_gep ins outs rw gep = Some (say rw [SkippedUnreachable g]))
  /\ (reachable (state_at ins (bb_addr BB)) = true -> needs_check idx_r n = false ->
      exists rw', instrument_gep ins outs rw gep = Some rw'
                  /\ rw_blocks rw' = rw_blocks rw
                  /\ rw_modified rw' = rw_modified rw
                  /\ In (Skipped g) (rw_log rw'))
  /\ (reachable (state_at ins (bb_addr BB)) = true -> needs_check idx_r n = true ->
      exists rw', instrument_gep ins outs rw gep = Some rw'
                  /\ rw_modified rw' = true
                  /\ add_check gep n (rw_blocks rw) (rw_fresh rw)
                     = Some (rw_blocks rw', rw_fresh rw')
                  /\ In (Instrumenting g) (rw_log rw')).
Proof.
  intros gep idx_r Hp. unfold instrument_gep, gep. rewrite Hp. fold gep.
  split; [|split].
  - intros ->. reflexivity.
  - intros -> Hn. cbn [negb]. unfold idx_r in Hn.
    destruct (index_range_at gep BB ins outs) as [st_at r]. cbn [snd] in Hn.
    cbn [second_index]. rewrite Hn. cbn [negb].
    eexists. split; [reflexivity|]. cbn. repeat split.
    rewrite !in_app_iff. right. left. reflexivity.
  - intros -> Hn. cbn [negb]. unfold idx_r in Hn.
    destruct (index_range_at gep BB ins outs) as [st_at r]. cbn [snd] in Hn.
    cbn [second_index]. rewrite Hn. cbn [negb say rw_blocks rw_fresh].
    destruct (add_check_succeeds g (AllocaInst b (ArrayTy n elt)) i0 idx more n
                (rw_blocks rw) (rw_fresh rw) BB Hp) as (blocks' & A).
    fold gep in A. rewrite A.
    eexists. split; [reflexivity|]. cbn. repeat split.
    rewrite !in_app_iff. right. left. reflexivity.
Qed.

Lemma site_decision_witness :
  exists rw', instrument_gep (in_state Twice.solved) (out_state Twice.solved)
                (Rewriter (fn_blocks Twice.F) 100 false []) Twice.first = Some rw'
              /\ rw_modified rw' = true.
Proof.
  destruct (site_decision (in_state Twice.solved) (out_state Twice.solved)
              (Rewriter (fn_blocks Twice.F) 100 false []) 11 10 4 i32
              (ConstantInt 20 0) Twice.n [] Twice.entry eq_refl) as (_ & _ & G).
  destruct G as (rw' & E & M & _); [vm_compute; reflexivity..|].
  exists rw'. split; assumption.
Defined.

(* ===================================================================== *)
(** ** Further properties: arithmetic on exact ranges *)
(* ===================================================================== *)

Lemma singleton_not_bot c : is_int c -> range_eqb (range_of c c) r_bot = false.
Proof.
  intros Hc. rewrite range_of_id by assumption.
  apply range_eqb_neq. intros E. injection E as E1 E2.
  unfold INT_MAX, INT_MIN in *. lia.
Qed.

(** X24: on exact ranges the arithmetic is exact: the sum, difference and
    product of [a,a] and [b,b] are the exact ranges of the saturated sum,
    difference and product of [a] and [b]. *)
Theorem exact_arithmetic (a b : Z) :
  is_int a -> is_int b ->
  Range.add (range_of a a) (range_of b b) = range_of (sat_add a b) (sat_add a b)
  /\ Range.sub (range_of a a) (range_of b b) = range_of (sat_sub a b) (sat_sub a b)
  /\ Range.mul (range_of a a) (range_of b b) = range_of (sat_mul a b) (sat_mul a b).
Proof.
  intros Ha Hb. unfold Range.add, Range.sub, Range.mul, sat_add, sat_sub, sat_mul.
  rewrite !singleton_not_bot by assumption. cbn [orb].
  rewrite (range_of_id a a), (range_of_id b b) by assumption. cbn [safelane offlane].
  rewrite !int_sum_fits, !int_diff_fits, !int_prod_fits by assumption.
  unfold min4, max4. rewrite !Z.min_id, !Z.max_id. repeat split; reflexivity.
Qed.

Lemma exact_arithmetic_witness :
  Range.mul (range_of 65536 65536) (range_of 65536 65536) = range_of INT_MAX INT_MAX.
Proof.
  destruct (exact_arithmetic 65536 65536) as (_ & _ & M);
    [vm_compute; intuition discriminate..|].
  exact M.
Defined.
